(** * qsim [lib/parfor.h]: the OpenMP parallel-for and reduce primitive

    A shallow embedding of [qsim::ParallelForT<MIN_SIZE>] and the properties
    of its range partitioner ([GetIndex0], [GetIndex1]), its dispatcher
    ([Run]) and its reduce combiner ([RunReduceP], [RunReduce]).

    Integers are modelled as [Z] with the wrap-around of the C++ types
    written out: [uint64_t] is arithmetic modulo 2^64, [unsigned] is
    arithmetic modulo 2^32.  Division by zero, and a vector store outside
    the vector, are undefined behaviour in C++ and are the two faults of the
    model.

    The OpenMP runtime is not part of the program: the number of threads it
    grants to a parallel region is an argument [team] of the dispatchers,
    and the properties that need it assume [1 <= team <= num_threads]. *)

From Stdlib Require Import ZArith Lia.
From stdpp Require Import base tactics option list list_numbers.

Local Open Scope Z_scope.

(** ** Machine integers *)

Module Machine.

(** [uint64_t] values. *)
Definition is_uint64 (x : Z) : Prop := 0 ≤ x < 2 ^ 64.

(** [unsigned] values (32 bits on the platforms qsim builds for). *)
Definition is_unsigned (x : Z) : Prop := 0 ≤ x < 2 ^ 32.

Definition wrap64 (x : Z) : Z := x mod 2 ^ 64.
Definition wrap32 (x : Z) : Z := x mod 2 ^ 32.

(** [a * b] at type [uint64_t]. *)
Definition mul64 (a b : Z) : Z := wrap64 (a * b).

(** [a + b] at type [unsigned]. *)
Definition add32 (a b : Z) : Z := wrap32 (a + b).

(** [a / b] at type [uint64_t]; dividing by zero is undefined. *)
Definition div64 (a b : Z) : option Z :=
  if b =? 0 then None else Some (a / b).

End Machine.
Import Machine.

(** ** Executions: faults plus a log of callback invocations

    An execution either faults, by a division by zero or by a store outside
    a vector, or completes with a value.

    [func] and [op] are the caller's callbacks.  To speak about how often
    they are invoked, every invocation is logged.  The log of a parallel
    region lists the events of thread 0, then those of thread 1, and so on:
    the order inside one thread is the program order of that thread, the
    order between threads is only one of the possible interleavings. *)

Inductive event : Type :=
  | EvFunc (n m i : Z)   (* func(n, m, i, args...) *)
  | EvOp.                (* op(_, _) *)

Inductive fault : Type :=
  | DivisionByZero
  | OutOfBounds.

Definition exec (A : Type) : Type := (fault + list event * A)%type.

Definition ret {A} (a : A) : exec A := inr ([], a).

Definition bind {A B} (c : exec A) (k : A → exec B) : exec B :=
  match c with
  | inl f => inl f
  | inr (l1, a) =>
      match k a with
      | inl f => inl f
      | inr (l2, b) => inr (l1 ++ l2, b)
      end
  end.

Definition tell (e : event) : exec unit := inr ([e], tt).

(** A pure computation that is undefined where it returns [None]; [f] is
    the fault of the program there. *)
Definition lift {A} (f : fault) (o : option A) : exec A :=
  match o with
  | None => inl f
  | Some a => inr ([], a)
  end.

Notation "x <- c ;; k" := (bind c (fun x => k))
  (at level 100, c at next level, right associativity).
Notation "c ;;; k" := (bind c (fun _ => k))
  (at level 100, right associativity).

(** The value and the log of an execution. *)
Definition value {A} (c : exec A) : option A :=
  match c with inr (_, a) => Some a | inl _ => None end.
Definition calls {A} (c : exec A) : option (list event) :=
  match c with inr (l, _) => Some l | inl _ => None end.

(** How many times [func] was invoked in a log. *)
Definition is_func (e : event) : bool :=
  match e with EvFunc _ _ _ => true | EvOp => false end.
Definition func_count (l : list event) : nat := length (filter is_func l).

(** A loop whose body is run once per element, in order, threading the
    variables the body assigns to. *)
Fixpoint for_each {A S} (l : list A) (body : A → S → exec S) (s : S)
  : exec S :=
  match l with
  | [] => ret s
  | a :: l' => s' <- body a s ;; for_each l' body s'
  end.

(** [for (uint64_t i = i0; i < i1; ++i) body]. *)
Definition for_range {S} (i0 i1 : Z) (body : Z → S → exec S) (s : S)
  : exec S :=
  for_each (seqZ i0 (i1 - i0)) body s.

(** [#pragma omp parallel]: the region's block is run by every thread of the
    team, thread [m] of [team] with [omp_get_num_threads() = team] and
    [omp_get_thread_num() = m].  [s] is the state the threads share. *)
Definition parallel {S} (team : Z) (block : Z → S → exec S) (s : S)
  : exec S :=
  for_each (seqZ 0 team) block s.

(** [v[m] = x] on a [std::vector]; undefined outside the vector. *)
Definition vec_store {A} (v : list A) (m : Z) (x : A) : option (list A) :=
  if (0 <=? m) && (m <? Z.of_nat (length v))
  then Some (<[Z.to_nat m := x]> v)
  else None.

(** ** The program *)

Section ParallelForT.

(** The template parameter [MIN_SIZE]. *)
Variable MIN_SIZE : Z.

Definition GetIndex0 (size num_threads thread_id : Z) : option Z :=
  if MIN_SIZE <=? size
  then div64 (mul64 size thread_id) num_threads
  else Some 0.

Definition GetIndex1 (size num_threads thread_id : Z) : option Z :=
  if MIN_SIZE <=? size
  then div64 (mul64 size (add32 thread_id 1)) num_threads
  else Some size.

(** The block of the parallel region of [Run], as thread [m] of a team of
    [n] runs it. *)
Definition run_block (size n m : Z) (_ : unit) : exec unit :=
  i0 <- lift DivisionByZero (GetIndex0 size n m) ;;
  i1 <- lift DivisionByZero (GetIndex1 size n m) ;;
  for_range i0 i1 (λ i _, tell (EvFunc n m i)) tt.

(** [Run].  [team] is the number of threads the OpenMP runtime grants to
    the parallel region that asks for [num_threads]. *)
Definition Run (team num_threads size : Z) : exec unit :=
  if (1 <? num_threads) && (MIN_SIZE <=? size) then
    parallel team (run_block size team) tt
  else
    for_range 0 size (λ i _, tell (EvFunc 1 0 i)) tt.

Section Reduce.

(** [Op::result_type], the value [0] converts to at that type, the
    work function and the combine operation. *)
Context {R : Type}.
Variable zero : R.
Variable func : Z → Z → Z → R.
Variable op : R → R → R.

Definition call_func (n m i : Z) : exec R :=
  tell (EvFunc n m i) ;;; ret (func n m i).

Definition call_op (a b : R) : exec R :=
  tell EvOp ;;; ret (op a b).

(** [partial_result = op(partial_result, func(n, m, i, args...))]. *)
Definition accumulate (n m i : Z) (partial_result : R) : exec R :=
  x <- call_func n m i ;; call_op partial_result x.

(** The block of the parallel region of [RunReduceP], as thread [m] of
    a team of [n] runs it on the shared vector. *)
Definition reduce_block (size n m : Z) (partial_results : list R)
  : exec (list R) :=
  i0 <- lift DivisionByZero (GetIndex0 size n m) ;;
  i1 <- lift DivisionByZero (GetIndex1 size n m) ;;
  partial_result <- for_range i0 i1 (accumulate n m) zero ;;
  lift OutOfBounds (vec_store partial_results m partial_result).

Definition RunReduceP (team num_threads size : Z) : exec (list R) :=
  let partial_results : list R := [] in
  if (1 <? num_threads) && (MIN_SIZE <=? size) then
    let partial_results := replicate (Z.to_nat num_threads) zero in
    parallel team (reduce_block size team) partial_results
  else if 0 <? num_threads then
    result <- for_range 0 size (accumulate 1 0) zero ;;
    ret (partial_results ++ replicate 1 result)
  else
    ret partial_results.

Definition RunReduce (team num_threads size : Z) : exec R :=
  partial_results <- RunReduceP team num_threads size ;;
  for_each partial_results (λ partial_result result,
    call_op result partial_result) zero.

End Reduce.

End ParallelForT.

(** [using ParallelFor = ParallelForT<1024>]. *)
Module ParallelFor.
Definition MIN_SIZE : Z := 1024.
End ParallelFor.

(** ** What the properties are stated with *)

(** Index [i] lies in the range
    [[GetIndex0 size n m, GetIndex1 size n m)] of worker [m]. *)
Definition owns (MIN_SIZE size n m i : Z) : bool :=
  match GetIndex0 MIN_SIZE size n m, GetIndex1 MIN_SIZE size n m with
  | Some i0, Some i1 => (i0 <=? i) && (i <? i1)
  | _, _ => false
  end.

(** The ranges of the workers [0 ≤ m < n] are pairwise disjoint and their
    union is exactly [[0, size)]. *)
Definition ranges_partition (MIN_SIZE size n : Z) : Prop :=
  (∀ m i, 0 ≤ m < n → owns MIN_SIZE size n m i = true → 0 ≤ i < size) ∧
  (∀ i, 0 ≤ i < size → ∃ m, 0 ≤ m < n ∧ owns MIN_SIZE size n m i = true) ∧
  (∀ a b i, 0 ≤ a < n → 0 ≤ b < n →
     owns MIN_SIZE size n a i = true → owns MIN_SIZE size n b i = true →
     a = b).

(** The range of a worker, as the pair of its bounds. *)
Definition range_of (MIN_SIZE size n m : Z) : option (Z * Z) :=
  match GetIndex0 MIN_SIZE size n m, GetIndex1 MIN_SIZE size n m with
  | Some i0, Some i1 => Some (i0, i1)
  | _, _ => None
  end.

(** The range of worker [m] is empty. *)
Definition range_is_empty (MIN_SIZE size n m : Z) : bool :=
  match range_of MIN_SIZE size n m with
  | Some (i0, i1) => i1 <=? i0
  | None => false
  end.

(** One worker owns everything: worker 0 has [[0, size)] and the range of
    every other worker is empty. *)
Definition single_owner (MIN_SIZE size n : Z) : Prop :=
  range_of MIN_SIZE size n 0 = Some (0, size) ∧
  ∀ m, 0 < m < n → range_is_empty MIN_SIZE size n m = true.

(** The range of worker [a] ends at or before the start of the range of
    worker [b]. *)
Definition ends_before (MIN_SIZE size n a b : Z) : bool :=
  match GetIndex1 MIN_SIZE size n a, GetIndex0 MIN_SIZE size n b with
  | Some i1, Some i0 => i1 <=? i0
  | _, _ => false
  end.

(** The sequential fold of [op] over the work function at every index of
    [[0, size)], in increasing order, starting from [seed]. *)
Definition fold_range {R} (op : R → R → R) (g : Z → R) (seed : R)
    (i0 i1 : Z) : R :=
  fold_left (λ acc i, op acc (g i)) (seqZ i0 (i1 - i0)) seed.

Definition sequential_fold {R} (op : R → R → R) (g : Z → R) (seed : R)
    (size : Z) : R :=
  fold_range op g seed 0 size.

(** The events of one worker folding the indices [l]: each index costs one
    call of the work function and one call of the combine operation. *)
Definition accumulate_log (n m : Z) (l : list Z) : list event :=
  l ≫= λ i, [EvFunc n m i; EvOp].

(** What worker [m] of [n] folds out of its range from [seed], and the events
    it causes ([seed] and nothing when the range is undefined). *)
Definition worker_partial {R} (MIN_SIZE : Z) (seed : R)
    (func : Z → Z → Z → R) (op : R → R → R) (size n m : Z) : R :=
  match range_of MIN_SIZE size n m with
  | Some (i0, i1) => fold_range op (func n m) seed i0 i1
  | None => seed
  end.

Definition worker_log (MIN_SIZE size n m : Z) : list event :=
  match range_of MIN_SIZE size n m with
  | Some (i0, i1) => accumulate_log n m (seqZ i0 (i1 - i0))
  | None => []
  end.

(** The calls worker [m] of [n] makes in [Run]. *)
Definition worker_calls (MIN_SIZE size n m : Z) : list event :=
  match range_of MIN_SIZE size n m with
  | Some (i0, i1) => EvFunc n m <$> seqZ i0 (i1 - i0)
  | None => []
  end.

(** The test both dispatchers make before they open a parallel region. *)
Definition parallel_path (MIN_SIZE num_threads size : Z) : bool :=
  (1 <? num_threads) && (MIN_SIZE <=? size).

(** The reduce combiner as the specification words it (section 4.3): the
    dispatch and the ranges are those of the program, one slot per requested
    worker, but every accumulator is seeded with an identity [e] that
    belongs to the combine operation. *)
Module Spec.
Section Seeded.
Context {R : Type}.
Variable MIN_SIZE : Z.
Variable e : R.
Variable func : Z → Z → Z → R.
Variable op : R → R → R.

Definition RunReducePartial (team requested size : Z) : list R :=
  if (1 <? requested) && (MIN_SIZE <=? size) then
    (worker_partial MIN_SIZE e func op size team <$> seqZ 0 team)
      ++ replicate (Z.to_nat (requested - team)) e
  else if 0 <? requested then
    [fold_range op (func 1 0) e 0 size]
  else [].

Definition RunReduce (team requested size : Z) : R :=
  fold_left op (RunReducePartial team requested size) e.
End Seeded.
End Spec.

(** The index a logged call of the work function was made with. *)
Definition event_index (e : event) : option Z :=
  match e with EvFunc _ _ i => Some i | EvOp => None end.

(** The indices the work function was called with, in the order of the
    log. *)
Definition func_indices (l : list event) : list Z := omap event_index l.

(** The calls of the work function in a log, and how often the combine
    operation was invoked in it. *)
Definition func_calls (l : list event) : list event := filter is_func l.
Definition op_count (l : list event) : nat :=
  length (filter (λ e, negb (is_func e)) l).

(** ** The parallel region of [RunReduceP], one step at a time

    The threads of a team run concurrently.  A thread is in its loop, with
    its private [i], [i1] and [partial_result], or it has stored its result
    and left the region; a thread whose range is undefined has faulted.  One
    step of thread [m] is one iteration of its loop or, after the loop, its
    store [partial_results[m] = partial_result].  A schedule is the list of
    the thread ids that take the steps, in order. *)

Inductive thread_state (R : Type) : Type :=
  | Looping (i i1 : Z) (partial_result : R)
  | Finished
  | Faulted.
Arguments Looping {R} i i1 partial_result.
Arguments Finished {R}.
Arguments Faulted {R}.

Section Interleaving.

Context {R : Type}.
Variable MIN_SIZE : Z.
Variable zero : R.
Variable func : Z → Z → Z → R.
Variable op : R → R → R.

(** A thread enters the region: it computes its range and clears its
    accumulator. *)
Definition thread_start (size n m : Z) : thread_state R :=
  match GetIndex0 MIN_SIZE size n m, GetIndex1 MIN_SIZE size n m with
  | Some i0, Some i1 => Looping i0 i1 zero
  | _, _ => Faulted
  end.

Definition region_start (size team num_threads : Z)
  : list (thread_state R) * list R :=
  (thread_start size team <$> seqZ 0 team,
   replicate (Z.to_nat num_threads) zero).

(** One step of thread [m]; [None] when that thread cannot take a step. *)
Definition thread_step (n : Z) (m : nat)
    (c : list (thread_state R) * list R)
  : option (list (thread_state R) * list R) :=
  let '(threads, partial_results) := c in
  match threads !! m with
  | Some (Looping i i1 partial_result) =>
      if i <? i1 then
        Some (<[m := Looping (i + 1) i1
                       (op partial_result (func n (Z.of_nat m) i))]> threads,
              partial_results)
      else if bool_decide (m < length partial_results)%nat then
        Some (<[m := Finished]> threads,
              <[m := partial_result]> partial_results)
      else None
  | _ => None
  end.

Fixpoint run_schedule (n : Z) (sched : list nat)
    (c : list (thread_state R) * list R)
  : option (list (thread_state R) * list R) :=
  match sched with
  | [] => Some c
  | m :: sched' =>
      match thread_step n m c with
      | Some c' => run_schedule n sched' c'
      | None => None
      end
  end.

(** Every thread has left the region. *)
Definition all_finished (threads : list (thread_state R)) : bool :=
  forallb (λ t, match t with Finished => true | _ => false end) threads.

(** The steps a thread still has to take: the iterations left in its loop
    and its store. *)
Definition work_left (t : thread_state R) : nat :=
  match t with
  | Looping i i1 _ => S (Z.to_nat (i1 - i))
  | _ => 0
  end.

Definition region_work (threads : list (thread_state R)) : nat :=
  sum_list_with work_left threads.

(** What holds of a thread and of its slot at every moment: in its loop the
    accumulator is the fold over the indices done so far and the slot is
    still 0; after its store the slot is the fold over its range. *)
Definition thread_inv (size team : Z) (m : nat) (t : thread_state R) (slot : option R)
  : Prop :=
  ∃ i0 i1,
    range_of MIN_SIZE size team (Z.of_nat m) = Some (i0, i1) ∧
    match t with
    | Looping i i1' partial_result =>
        i1' = i1 ∧ i0 ≤ i ∧ (i ≤ i1 ∨ i = i0) ∧
        partial_result = fold_range op (func team (Z.of_nat m)) zero i0 i ∧
        slot = Some zero
    | Finished =>
        slot = Some (fold_range op (func team (Z.of_nat m)) zero i0 i1)
    | Faulted => False
    end.

Definition region_inv (size team num_threads : Z)
    (c : list (thread_state R) * list R) : Prop :=
  length c.1 = Z.to_nat team ∧
  length c.2 = Z.to_nat num_threads ∧
  (∀ m t, c.1 !! m = Some t → thread_inv size team m t (c.2 !! m)) ∧
  (∀ j, (Z.to_nat team ≤ j < Z.to_nat num_threads)%nat →
        c.2 !! j = Some zero).

End Interleaving.

(** * Properties *)

(** ** Executions *)

Lemma bind_ret_l {A B} (a : A) (k : A → exec B) : bind (ret a) k = k a.
Proof. unfold bind, ret. by destruct (k a) as [f|[l b]]. Qed.

Lemma bind_inr {A B} (l : list event) (a : A) (k : A → exec B) l' b :
  k a = inr (l', b) → bind (inr (l, a)) k = inr (l ++ l', b).
Proof. intros Hk. unfold bind. by rewrite Hk. Qed.

Lemma bind_lift_Some {A B} f (o : option A) (a : A) (k : A → exec B) :
  o = Some a → bind (lift f o) k = k a.
Proof. intros ->. apply (bind_ret_l a k). Qed.

(** A fault of a sequence is a fault of one of its two parts. *)
Lemma bind_fault {A B} (c : exec A) (k : A → exec B) f :
  bind c k = inl f → c = inl f ∨ ∃ a, k a = inl f.
Proof.
  unfold bind. destruct c as [f'|[l a]]; [intros [= ->]; by left|].
  destruct (k a) as [f'|[l' b]] eqn:Hk; [|done].
  intros [= ->]. right. by exists a.
Qed.

Lemma for_each_app {A S} (l1 l2 : list A) (body : A → S → exec S) s :
  for_each (l1 ++ l2) body s =
  (s' <- for_each l1 body s ;; for_each l2 body s').
Proof.
  revert s. induction l1 as [|a l1 IH]; intros s; simpl.
  - by destruct (for_each l2 body s) as [f|[lc sc]].
  - destruct (body a s) as [f|[la sa]]; simpl; [done|].
    rewrite IH. destruct (for_each l1 body sa) as [f|[lb sb]]; simpl; [done|].
    destruct (for_each l2 body sb) as [f|[lc sc]]; simpl; [done|].
    by rewrite app_assoc.
Qed.

(** A loop whose body cannot fail, and whose effect on the state and on the
    log is known, is a fold. *)
Lemma for_each_pure {A S} (l : list A) (body : A → S → exec S)
    (ev : A → list event) (step : S → A → S) s :
  (∀ a s, body a s = inr (ev a, step s a)) →
  for_each l body s = inr (l ≫= ev, fold_left step l s).
Proof.
  intros Hbody. revert s. induction l as [|a l IH]; intros s; simpl; [done|].
  rewrite Hbody. simpl. by rewrite IH.
Qed.

(** A loop faults only where its body does. *)
Lemma for_each_fault {A S} (l : list A) (body : A → S → exec S) s f :
  for_each l body s = inl f → ∃ a s', a ∈ l ∧ body a s' = inl f.
Proof.
  revert s. induction l as [|a l IH]; intros s; simpl; [done|].
  intros [Hf|[s' Hf]]%bind_fault.
  - exists a, s. split; [apply list_elem_of_here | done].
  - destruct (IH s' Hf) as (a' & s'' & Hin & Hf').
    exists a', s''. split; [by apply list_elem_of_further | done].
Qed.

(** ** Machine arithmetic *)

Lemma wrap64_small x : 0 ≤ x < 2 ^ 64 → wrap64 x = x.
Proof. intros Hx. unfold wrap64. by apply Z.mod_small. Qed.

Lemma wrap32_small x : 0 ≤ x < 2 ^ 32 → wrap32 x = x.
Proof. intros Hx. unfold wrap32. by apply Z.mod_small. Qed.

Lemma wrap64_range x : 0 ≤ wrap64 x < 2 ^ 64.
Proof. unfold wrap64. apply Z.mod_pos_bound. lia. Qed.

Lemma div64_Some a b : b ≠ 0 → div64 a b = Some (a / b).
Proof. intros Hb. unfold div64. by destruct (Z.eqb_spec b 0). Qed.

Lemma div64_zero a : div64 a 0 = None.
Proof. done. Qed.

(** A product that wraps around is divided to something strictly smaller than
    the exact quotient, whatever the 32-bit divisor. *)
Lemma wrapped_quotient_lt x n :
  1 ≤ n < 2 ^ 32 → 2 ^ 64 ≤ x → wrap64 x / n < x / n.
Proof.
  intros Hn Hx. pose proof (wrap64_range x) as Hr.
  assert (wrap64 x + n ≤ x) as Hle.
  { unfold wrap64 in *. pose proof (Z.div_mod x (2 ^ 64)) as Hdm.
    assert (1 ≤ x / 2 ^ 64) by (apply Z.div_le_lower_bound; lia).
    lia. }
  assert ((wrap64 x + n) / n ≤ x / n) as Hq by (apply Z.div_le_mono; lia).
  replace (wrap64 x + n) with (wrap64 x + 1 * n) in Hq by lia.
  rewrite Z.div_add in Hq by lia. lia.
Qed.

Lemma wrapped_quotient_eq x n :
  1 ≤ n < 2 ^ 32 → 0 ≤ x → (wrap64 x / n = x / n ↔ x < 2 ^ 64).
Proof.
  intros Hn Hx. split.
  - intros Heq. destruct (Z.lt_ge_cases x (2 ^ 64)) as [|Hge]; [done|].
    pose proof (wrapped_quotient_lt x n Hn Hge). lia.
  - intros Hlt. by rewrite wrap64_small.
Qed.

(** ** The range partitioner *)

Section Partitioner.

Variable MIN_SIZE : Z.

Lemma GetIndex0_below size n m :
  size < MIN_SIZE → GetIndex0 MIN_SIZE size n m = Some 0.
Proof. intros H. unfold GetIndex0. by destruct (Z.leb_spec MIN_SIZE size); [lia|]. Qed.

Lemma GetIndex1_below size n m :
  size < MIN_SIZE → GetIndex1 MIN_SIZE size n m = Some size.
Proof. intros H. unfold GetIndex1. by destruct (Z.leb_spec MIN_SIZE size); [lia|]. Qed.

Lemma GetIndex0_above size n m :
  MIN_SIZE ≤ size → n ≠ 0 →
  GetIndex0 MIN_SIZE size n m = Some (wrap64 (size * m) / n).
Proof.
  intros H Hn. unfold GetIndex0, mul64.
  destruct (Z.leb_spec MIN_SIZE size); [|lia]. by apply div64_Some.
Qed.

Lemma GetIndex1_above size n m :
  MIN_SIZE ≤ size → n ≠ 0 → 0 ≤ m → m + 1 < 2 ^ 32 →
  GetIndex1 MIN_SIZE size n m = Some (wrap64 (size * (m + 1)) / n).
Proof.
  intros H Hn Hm0 Hm. unfold GetIndex1, mul64, add32.
  destruct (Z.leb_spec MIN_SIZE size); [|lia].
  rewrite wrap32_small by lia. by apply div64_Some.
Qed.

(** Without wrap-around both bounds are the floor quotients. *)
Lemma GetIndex0_exact size n m :
  MIN_SIZE ≤ size → n ≠ 0 → 0 ≤ size * m < 2 ^ 64 →
  GetIndex0 MIN_SIZE size n m = Some (size * m / n).
Proof.
  intros H Hn Hw. rewrite GetIndex0_above by done. by rewrite wrap64_small.
Qed.

Lemma GetIndex1_exact size n m :
  MIN_SIZE ≤ size → n ≠ 0 → 0 ≤ m → m + 1 < 2 ^ 32 →
  0 ≤ size * (m + 1) < 2 ^ 64 →
  GetIndex1 MIN_SIZE size n m = Some (size * (m + 1) / n).
Proof.
  intros H Hn Hm0 Hm Hw. rewrite GetIndex1_above by done.
  by rewrite wrap64_small.
Qed.

End Partitioner.

(** The boundaries [size * k / n] of the exact split. *)
Lemma boundary_mono size n j k :
  0 ≤ size → 0 < n → j ≤ k → size * j / n ≤ size * k / n.
Proof. intros Hs Hn Hjk. apply Z.div_le_mono; nia. Qed.

Lemma boundary_first size n : size * 0 / n = 0.
Proof. by rewrite Z.mul_0_r. Qed.

Lemma boundary_last size n : 0 < n → size * n / n = size.
Proof. intros Hn. apply Z.div_mul. lia. Qed.

Lemma boundary_nonneg size n k : 0 ≤ size → 0 < n → 0 ≤ k → 0 ≤ size * k / n.
Proof. intros. apply Z.div_pos; nia. Qed.

Lemma boundary_le_size size n k :
  0 ≤ size → 0 < n → k ≤ n → size * k / n ≤ size.
Proof.
  intros Hs Hn Hk. rewrite <- (boundary_last size n) at 2 by done.
  by apply boundary_mono.
Qed.

(** Every index below a boundary lies between two consecutive boundaries. *)
Lemma boundary_cover size n i (k : nat) :
  0 ≤ size → 0 < n → 0 ≤ i < size * Z.of_nat k / n →
  ∃ m, 0 ≤ m < Z.of_nat k ∧ size * m / n ≤ i < size * (m + 1) / n.
Proof.
  intros Hs Hn. induction k as [|k IH]; intros Hi.
  - rewrite boundary_first in Hi. lia.
  - destruct (Z.lt_ge_cases i (size * Z.of_nat k / n)) as [Hlt|Hge].
    + destruct IH as (m & Hm & Hr); [lia|]. exists m. lia.
    + exists (Z.of_nat k). split; [lia|].
      replace (Z.of_nat k + 1) with (Z.of_nat (S k)) by lia. lia.
Qed.

Section Ranges.

Variable MIN_SIZE : Z.

Lemma owns_below size n m i :
  size < MIN_SIZE → owns MIN_SIZE size n m i = true ↔ 0 ≤ i < size.
Proof.
  intros H. unfold owns. rewrite GetIndex0_below, GetIndex1_below by done.
  rewrite andb_true_iff, Z.leb_le, Z.ltb_lt. done.
Qed.

Lemma owns_above size n m i :
  MIN_SIZE ≤ size → 0 ≤ size → 1 ≤ n < 2 ^ 32 → 0 ≤ m < n →
  size * (m + 1) < 2 ^ 64 →
  owns MIN_SIZE size n m i = true ↔
  size * m / n ≤ i < size * (m + 1) / n.
Proof.
  intros H Hs Hn Hm Hw. unfold owns.
  rewrite GetIndex0_exact, GetIndex1_exact by nia.
  rewrite andb_true_iff, Z.leb_le, Z.ltb_lt. done.
Qed.

Lemma range_of_below size n m :
  size < MIN_SIZE → range_of MIN_SIZE size n m = Some (0, size).
Proof.
  intros H. unfold range_of. by rewrite GetIndex0_below, GetIndex1_below.
Qed.

Lemma range_of_above size n m :
  MIN_SIZE ≤ size → 0 ≤ size → 1 ≤ n < 2 ^ 32 → 0 ≤ m < n →
  size * (m + 1) < 2 ^ 64 →
  range_of MIN_SIZE size n m = Some (size * m / n, size * (m + 1) / n).
Proof.
  intros H Hs Hn Hm Hw. unfold range_of.
  by rewrite GetIndex0_exact, GetIndex1_exact by nia.
Qed.

Lemma partition_above size n :
  MIN_SIZE ≤ size → 0 ≤ size → 1 ≤ n < 2 ^ 32 → size * n < 2 ^ 64 →
  ranges_partition MIN_SIZE size n.
Proof.
  intros H Hs Hn Hw.
  assert (∀ m, 0 ≤ m < n → size * (m + 1) < 2 ^ 64) as Hwm by (intros; nia).
  split; [|split].
  - intros m i Hm Ho. apply owns_above in Ho; auto.
    pose proof (boundary_nonneg size n m).
    pose proof (boundary_le_size size n (m + 1)). lia.
  - intros i Hi.
    destruct (boundary_cover size n i (Z.to_nat n)) as (m & Hm & Hr);
      [lia | lia | |].
    { rewrite Z2Nat.id, boundary_last by lia. lia. }
    exists m. split; [lia|].
    apply owns_above; [done | done | done | lia | apply Hwm; lia | lia].
  - intros a b i Ha Hb Hoa Hob.
    apply owns_above in Hoa; auto. apply owns_above in Hob; auto.
    destruct (Z.lt_trichotomy a b) as [Hlt|[Heq|Hgt]]; [|done|].
    + pose proof (boundary_mono size n (a + 1) b). lia.
    + pose proof (boundary_mono size n (b + 1) a). lia.
Qed.

Lemma partition_single size :
  0 ≤ size < 2 ^ 64 → ranges_partition MIN_SIZE size 1.
Proof.
  intros Hs. destruct (Z.le_gt_cases MIN_SIZE size) as [Hle|Hgt].
  - apply partition_above; lia.
  - split; [|split].
    + intros m i Hm Ho. by apply owns_below in Ho.
    + intros i Hi. exists 0. split; [lia|]. by apply owns_below.
    + intros; lia.
Qed.

End Ranges.

(** ** The loops of the program *)

Lemma fold_left_unit {A} (l : list A) (u : unit) :
  fold_left (λ _ _, tt) l u = tt.
Proof. by destruct (fold_left _ l u). Qed.

Lemma bind_singleton_fmap {A B} (f : A → B) (l : list A) :
  l ≫= (λ a, [f a]) = f <$> l.
Proof. induction l as [|a l IH]; [done|]. by rewrite bind_cons, IH. Qed.

(** The loop of [Run] over [[i0, i1)] invokes [func] once per index. *)
Lemma for_range_tell n m i0 i1 :
  for_range i0 i1 (λ i _, tell (EvFunc n m i)) tt =
  inr (EvFunc n m <$> seqZ i0 (i1 - i0), tt).
Proof.
  unfold for_range.
  rewrite (for_each_pure _ _ (λ i, [EvFunc n m i]) (λ _ _, tt)) by done.
  by rewrite fold_left_unit, bind_singleton_fmap.
Qed.

Section Loops.

Context {R : Type}.
Variable zero : R.
Variable func : Z → Z → Z → R.
Variable op : R → R → R.

Lemma accumulate_eq n m i acc :
  accumulate func op n m i acc =
  inr ([EvFunc n m i; EvOp], op acc (func n m i)).
Proof. done. Qed.

(** The accumulation loop of a worker is the fold of [op] over its
    range. *)
Lemma for_range_accumulate n m i0 i1 seed :
  for_range i0 i1 (accumulate func op n m) seed =
  inr (accumulate_log n m (seqZ i0 (i1 - i0)),
       fold_range op (func n m) seed i0 i1).
Proof.
  unfold for_range, accumulate_log, fold_range.
  by rewrite (for_each_pure _ _ (λ i, [EvFunc n m i; EvOp])
                (λ acc i, op acc (func n m i))).
Qed.

(** The final loop of [RunReduce] is the fold of [op] over the partial
    results. *)
Lemma for_each_call_op (l : list R) seed :
  for_each l (λ partial_result result, call_op op result partial_result)
    seed =
  inr (l ≫= (λ _, [EvOp]), fold_left op l seed).
Proof. by rewrite (for_each_pure _ _ (λ _, [EvOp]) op). Qed.

End Loops.

(** ** The parallel regions *)

Section Regions.

Variable MIN_SIZE : Z.

Lemma range_of_is_Some size n m :
  n ≠ 0 → is_Some (range_of MIN_SIZE size n m).
Proof.
  intros Hn. unfold range_of, GetIndex0, GetIndex1.
  destruct (MIN_SIZE <=? size); [|by eexists].
  rewrite !div64_Some by done. by eexists.
Qed.

Lemma range_of_Some size n m i0 i1 :
  range_of MIN_SIZE size n m = Some (i0, i1) →
  GetIndex0 MIN_SIZE size n m = Some i0 ∧
  GetIndex1 MIN_SIZE size n m = Some i1.
Proof.
  unfold range_of.
  destruct (GetIndex0 _ _ _ _), (GetIndex1 _ _ _ _); naive_solver.
Qed.

(** One thread of [Run]'s region. *)
Lemma run_block_eq size n m i0 i1 u :
  range_of MIN_SIZE size n m = Some (i0, i1) →
  run_block MIN_SIZE size n m u =
  inr (EvFunc n m <$> seqZ i0 (i1 - i0), tt).
Proof.
  intros [H0 H1]%range_of_Some. unfold run_block.
  rewrite (bind_lift_Some _ _ i0) by done.
  rewrite (bind_lift_Some _ _ i1) by done.
  apply for_range_tell.
Qed.

Section Reduce.

Context {R : Type}.
Variable zero : R.
Variable func : Z → Z → Z → R.
Variable op : R → R → R.

(** One thread of [RunReduceP]'s region: it folds its range into a
    private accumulator and stores it in its own slot. *)
Lemma reduce_block_eq size n m (v : list R) :
  n ≠ 0 → 0 ≤ m < Z.of_nat (length v) →
  reduce_block MIN_SIZE zero func op size n m v =
  inr (worker_log MIN_SIZE size n m,
       <[Z.to_nat m := worker_partial MIN_SIZE zero func op size n m]> v).
Proof.
  intros Hn Hm. unfold worker_log, worker_partial.
  destruct (range_of_is_Some size n m Hn) as [[i0 i1] Hr]. rewrite Hr.
  apply range_of_Some in Hr as [H0 H1]. unfold reduce_block.
  rewrite (bind_lift_Some _ _ i0) by done.
  rewrite (bind_lift_Some _ _ i1) by done.
  rewrite for_range_accumulate.
  erewrite bind_inr; [by rewrite app_nil_r|].
  unfold vec_store.
  destruct (Z.leb_spec 0 m); [|lia].
  by destruct (Z.ltb_spec m (Z.of_nat (length v))); [|lia].
Qed.

(** After the first [k] threads of the team have run, the first [k]
    slots hold their partial results and the others still hold zero. *)
Lemma reduce_region_prefix size n (N k : nat) :
  n ≠ 0 → (k ≤ N)%nat →
  for_each (seqZ 0 (Z.of_nat k))
    (reduce_block MIN_SIZE zero func op size n) (replicate N zero) =
  inr (seqZ 0 (Z.of_nat k) ≫= worker_log MIN_SIZE size n,
       (worker_partial MIN_SIZE zero func op size n
          <$> seqZ 0 (Z.of_nat k)) ++ replicate (N - k) zero).
Proof.
  intros Hn. induction k as [|k IH]; intros Hk.
  - simpl. by rewrite Nat.sub_0_r.
  - rewrite seqZ_S, for_each_app, IH by lia. simpl.
    rewrite reduce_block_eq;
      [|done|rewrite length_app, length_fmap, length_seqZ,
               length_replicate; lia].
    rewrite bind_app, fmap_app. simpl. rewrite !app_nil_r, Z.add_0_l.
    do 2 f_equal.
    rewrite insert_app_r_alt
      by (rewrite length_fmap, length_seqZ; lia).
    rewrite length_fmap, length_seqZ, Nat.sub_diag.
    replace (N - k)%nat with (S (N - S k)) by lia.
    by rewrite <- app_assoc.
Qed.

(** The order in which the threads of the team run does not matter:
    whatever the schedule, the slots of the threads that ran hold their
    partial results and the other slots are untouched. *)
Lemma reduce_region_schedule size n (sched : list Z) (v : list R) :
  n ≠ 0 → (∀ m, m ∈ sched → 0 ≤ m < Z.of_nat (length v)) →
  ∃ log v',
    for_each sched (reduce_block MIN_SIZE zero func op size n) v =
      inr (log, v') ∧
    length v' = length v ∧
    ∀ j : nat, v' !! j =
      if decide (Z.of_nat j ∈ sched) then
        if decide (j < length v)%nat
        then Some (worker_partial MIN_SIZE zero func op size n
                     (Z.of_nat j))
        else None
      else v !! j.
Proof.
  intros Hn. revert v. induction sched as [|m sched IH]; intros v Hin.
  - exists [], v. split; [done|]. split; [done|]. intros j.
    by rewrite decide_False by apply not_elem_of_nil.
  - assert (0 ≤ m < Z.of_nat (length v)) as Hm
      by apply Hin, list_elem_of_here.
    cbn [for_each]. rewrite reduce_block_eq by done.
    destruct (IH (<[Z.to_nat m :=
                     worker_partial MIN_SIZE zero func op size n m]> v))
      as (log & v' & Hrun & Hlen & Hlook).
    { intros m' Hm'. rewrite length_insert.
      by apply Hin, list_elem_of_further. }
    rewrite length_insert in Hlen, Hlook.
    exists (worker_log MIN_SIZE size n m ++ log), v'.
    split; [by apply bind_inr|]. split; [done|].
    intros j. rewrite Hlook.
    destruct (decide (Z.of_nat j ∈ sched)) as [Hj|Hj].
    + destruct (decide (Z.of_nat j ∈ m :: sched)) as [|Hcons]; [done|].
      destruct Hcons. by apply list_elem_of_further.
    + destruct (decide (Z.of_nat j = m)) as [<-|Hne].
      * destruct (decide (Z.of_nat j ∈ Z.of_nat j :: sched))
          as [|Hcons]; [|destruct Hcons; apply list_elem_of_here].
        rewrite Nat2Z.id.
        destruct (decide (j < length v)%nat); [|lia].
        by apply list_lookup_insert_eq.
      * destruct (decide (Z.of_nat j ∈ m :: sched))
          as [[Heq|Hin']%elem_of_cons|]; [by destruct Hne | by destruct Hj |].
        apply list_lookup_insert_ne. lia.
Qed.

Lemma reduce_region_permutation size n (sched1 sched2 : list Z)
    (v : list R) :
  n ≠ 0 → (∀ m, m ∈ sched1 → 0 ≤ m < Z.of_nat (length v)) →
  sched1 ≡ₚ sched2 →
  value (for_each sched1 (reduce_block MIN_SIZE zero func op size n) v) =
  value (for_each sched2 (reduce_block MIN_SIZE zero func op size n) v).
Proof.
  intros Hn Hin Hperm.
  destruct (reduce_region_schedule size n sched1 v Hn Hin)
    as (log1 & v1 & -> & Hlen1 & Hlook1).
  destruct (reduce_region_schedule size n sched2 v Hn)
    as (log2 & v2 & -> & Hlen2 & Hlook2).
  { intros m Hm. apply Hin. by rewrite Hperm. }
  simpl. f_equal. apply list_eq. intros j.
  rewrite Hlook1, Hlook2.
  destruct (decide (Z.of_nat j ∈ sched1)) as [H1|H1];
    destruct (decide (Z.of_nat j ∈ sched2)) as [H2|H2]; try done.
  - destruct H2. by rewrite <- Hperm.
  - destruct H1. by rewrite Hperm.
Qed.

End Reduce.

End Regions.

(** ** The dispatchers, path by path *)

Section Dispatch.

Variable MIN_SIZE : Z.

Lemma parallel_path_true num_threads size :
  parallel_path MIN_SIZE num_threads size = true ↔
  1 < num_threads ∧ MIN_SIZE ≤ size.
Proof.
  unfold parallel_path. by rewrite andb_true_iff, Z.ltb_lt, Z.leb_le.
Qed.

Lemma parallel_path_false num_threads size :
  parallel_path MIN_SIZE num_threads size = false ↔
  num_threads ≤ 1 ∨ size < MIN_SIZE.
Proof.
  unfold parallel_path. rewrite andb_false_iff, Z.ltb_ge, Z.leb_gt. done.
Qed.

Lemma Run_serial team num_threads size :
  parallel_path MIN_SIZE num_threads size = false →
  Run MIN_SIZE team num_threads size =
  inr (EvFunc 1 0 <$> seqZ 0 size, tt).
Proof.
  unfold parallel_path, Run. intros ->.
  rewrite for_range_tell. by rewrite Z.sub_0_r.
Qed.

Lemma Run_parallel team num_threads size :
  parallel_path MIN_SIZE num_threads size = true → team ≠ 0 →
  Run MIN_SIZE team num_threads size =
  inr (seqZ 0 team ≫= worker_calls MIN_SIZE size team, tt).
Proof.
  unfold parallel_path, Run. intros -> Hn. unfold parallel.
  rewrite (for_each_pure _ _ (worker_calls MIN_SIZE size team)
             (λ _ _, tt)).
  - by rewrite fold_left_unit.
  - intros m u. unfold worker_calls.
    destruct (range_of_is_Some MIN_SIZE size team m Hn) as [[i0 i1] Hr].
    rewrite Hr. by apply run_block_eq.
Qed.

Section Reduce.

Context {R : Type}.
Variable zero : R.
Variable func : Z → Z → Z → R.
Variable op : R → R → R.

Lemma RunReduceP_none team num_threads size :
  num_threads ≤ 0 →
  RunReduceP MIN_SIZE zero func op team num_threads size = inr ([], []).
Proof.
  intros H. unfold RunReduceP.
  destruct (Z.ltb_spec 1 num_threads); [lia|]. simpl.
  by destruct (Z.ltb_spec 0 num_threads); [lia|].
Qed.

Lemma RunReduceP_serial team num_threads size :
  parallel_path MIN_SIZE num_threads size = false → 1 ≤ num_threads →
  RunReduceP MIN_SIZE zero func op team num_threads size =
  inr (accumulate_log 1 0 (seqZ 0 size),
       [fold_range op (func 1 0) zero 0 size]).
Proof.
  unfold parallel_path, RunReduceP. intros -> H.
  destruct (Z.ltb_spec 0 num_threads); [|lia].
  rewrite for_range_accumulate. simpl.
  by rewrite app_nil_r, Z.sub_0_r.
Qed.

Lemma RunReduceP_parallel team num_threads size :
  parallel_path MIN_SIZE num_threads size = true →
  1 ≤ team ≤ num_threads →
  RunReduceP MIN_SIZE zero func op team num_threads size =
  inr (seqZ 0 team ≫= worker_log MIN_SIZE size team,
       (worker_partial MIN_SIZE zero func op size team <$> seqZ 0 team)
         ++ replicate (Z.to_nat (num_threads - team)) zero).
Proof.
  unfold parallel_path, RunReduceP. intros -> H. unfold parallel.
  rewrite <- (Z2Nat.id team) at 1 by lia.
  rewrite reduce_region_prefix by lia.
  rewrite Z2Nat.id, Z2Nat.inj_sub by lia. done.
Qed.

Lemma RunReduce_eq team num_threads size log partials :
  RunReduceP MIN_SIZE zero func op team num_threads size =
    inr (log, partials) →
  RunReduce MIN_SIZE zero func op team num_threads size =
  inr (log ++ (partials ≫= λ _, [EvOp]), fold_left op partials zero).
Proof.
  intros H. unfold RunReduce. rewrite H.
  apply bind_inr, for_each_call_op.
Qed.

End Reduce.

End Dispatch.

(** ** Folding the partial results *)

Lemma fold_range_ext {R} (op : R → R → R) (f g : Z → R) seed i0 i1 :
  (∀ i, i0 ≤ i < i1 → f i = g i) →
  fold_range op f seed i0 i1 = fold_range op g seed i0 i1.
Proof.
  intros Hfg. unfold fold_range.
  assert (∀ i, i ∈ seqZ i0 (i1 - i0) → f i = g i) as Hl.
  { intros i Hi%elem_of_seqZ. apply Hfg. lia. }
  revert seed. induction (seqZ i0 (i1 - i0)) as [|i l IH]; intros seed.
  - done.
  - simpl. rewrite (Hl i) by apply list_elem_of_here.
    apply IH. intros j Hj. apply Hl. by apply list_elem_of_further.
Qed.

Lemma fold_range_empty {R} (op : R → R → R) (g : Z → R) seed i0 i1 :
  i1 ≤ i0 → fold_range op g seed i0 i1 = seed.
Proof. intros H. unfold fold_range. by rewrite seqZ_nil by lia. Qed.

Section Monoid.

Context {R : Type}.
Variable op : R → R → R.
Variable zero : R.
Hypothesis op_assoc : ∀ a b c, op a (op b c) = op (op a b) c.
Hypothesis op_zero_r : ∀ a, op a zero = a.

Lemma fold_left_op_acc {A} (g : A → R) (l : list A) a b :
  fold_left (λ acc x, op acc (g x)) l (op a b) =
  op a (fold_left (λ acc x, op acc (g x)) l b).
Proof.
  revert b. induction l as [|x l IH]; intros b; simpl; [done|].
  by rewrite <- op_assoc, IH.
Qed.

(** A fold over [[i0, i2)] is the combination of the folds over
    [[i0, i1)] and [[i1, i2)]. *)
Lemma fold_range_split (g : Z → R) seed i0 i1 i2 :
  i0 ≤ i1 ≤ i2 →
  fold_range op g seed i0 i2 =
  op (fold_range op g seed i0 i1) (fold_range op g zero i1 i2).
Proof.
  intros H. unfold fold_range.
  replace (i2 - i0) with ((i1 - i0) + (i2 - i1)) by lia.
  rewrite seqZ_app, fold_left_app by lia.
  replace (i0 + (i1 - i0)) with i1 by lia.
  rewrite <- fold_left_op_acc. by rewrite op_zero_r.
Qed.

(** Folding, in worker order, the folds of consecutive ranges gives the
    fold of the whole range. *)
Lemma fold_left_consecutive (g : Z → R) (bnd : Z → Z) seed (k : nat) :
  (∀ j, 0 ≤ j < Z.of_nat k → bnd j ≤ bnd (j + 1)) →
  fold_left op
    ((λ m, fold_range op g zero (bnd m) (bnd (m + 1)))
       <$> seqZ 0 (Z.of_nat k)) seed =
  op seed (fold_range op g zero (bnd 0) (bnd (Z.of_nat k))) ∧
  bnd 0 ≤ bnd (Z.of_nat k).
Proof.
  induction k as [|k IH]; intros Hmono.
  - change (Z.of_nat 0) with 0. simpl.
    rewrite fold_range_empty by lia. by rewrite op_zero_r.
  - destruct IH as [IH Hle]; [intros; apply Hmono; lia|].
    assert (bnd (Z.of_nat k) ≤ bnd (Z.of_nat (S k))) as Hstep.
    { replace (Z.of_nat (S k)) with (Z.of_nat k + 1) by lia.
      apply Hmono. lia. }
    split; [|lia].
    rewrite seqZ_S, fmap_app, fold_left_app, IH. simpl.
    rewrite Z.add_0_l.
    replace (Z.of_nat k + 1) with (Z.of_nat (S k)) by lia.
    rewrite <- op_assoc. f_equal. symmetry.
    apply fold_range_split. lia.
Qed.

(** Slots that were never written still hold zero and do not count. *)
Lemma fold_left_replicate_zero (l : list R) (j : nat) seed :
  fold_left op (l ++ replicate j zero) seed = fold_left op l seed.
Proof.
  rewrite fold_left_app. generalize (fold_left op l seed) as a.
  induction j as [|j IH]; intros a; simpl; [done|].
  by rewrite op_zero_r.
Qed.

End Monoid.

(** ** [RunReduce] against the sequential fold *)

Section ReduceCorrect.

Context {R : Type}.
Variable MIN_SIZE : Z.
Variable op : R → R → R.
Variable zero : R.
Variable func : Z → Z → Z → R.
Variable g : Z → R.
Hypothesis op_assoc : ∀ a b c, op a (op b c) = op (op a b) c.
Hypothesis op_zero_l : ∀ a, op zero a = a.
Hypothesis op_zero_r : ∀ a, op a zero = a.
Hypothesis func_index : ∀ n m i, func n m i = g i.

Lemma worker_partial_exact size n m :
  MIN_SIZE ≤ size → 0 ≤ size → 1 ≤ n < 2 ^ 32 → 0 ≤ m < n →
  size * (m + 1) < 2 ^ 64 →
  worker_partial MIN_SIZE zero func op size n m =
  fold_range op g zero (size * m / n) (size * (m + 1) / n).
Proof.
  intros H Hs Hn Hm Hw. unfold worker_partial.
  rewrite range_of_above by done. by apply fold_range_ext.
Qed.

Lemma partials_fold_parallel size team (j : nat) :
  MIN_SIZE ≤ size → 0 ≤ size → 1 ≤ team < 2 ^ 32 →
  size * team < 2 ^ 64 →
  fold_left op
    ((worker_partial MIN_SIZE zero func op size team <$> seqZ 0 team)
       ++ replicate j zero) zero =
  sequential_fold op g zero size.
Proof.
  intros H Hs Hn Hw. rewrite fold_left_replicate_zero by done.
  rewrite (list_fmap_ext _
    (λ m, fold_range op g zero (size * m / team) (size * (m + 1) / team))).
  - replace (seqZ 0 team) with (seqZ 0 (Z.of_nat (Z.to_nat team)))
      by (by rewrite Z2Nat.id by lia).
    destruct (fold_left_consecutive op zero op_assoc op_zero_r g
                (λ k, size * k / team) zero (Z.to_nat team)) as [-> _].
    + intros k Hk. apply boundary_mono; lia.
    + rewrite op_zero_l, boundary_first, Z2Nat.id, boundary_last by lia.
      done.
  - intros i m [-> Hi]%lookup_seqZ.
    apply worker_partial_exact; try done; [lia | nia].
Qed.

(** The reduction needs associativity and the identity only: the ranges
    are consecutive and are folded in worker order. *)
Lemma RunReduce_fold team num_threads size :
  0 ≤ size → 1 ≤ num_threads → 1 ≤ team ≤ num_threads → team < 2 ^ 32 →
  (parallel_path MIN_SIZE num_threads size = true →
   size * team < 2 ^ 64) →
  value (RunReduce MIN_SIZE zero func op team num_threads size) =
  Some (sequential_fold op g zero size).
Proof.
  intros Hs Hnt Hteam Hteam32 Hw.
  destruct (parallel_path MIN_SIZE num_threads size) eqn:Hpath.
  - erewrite RunReduce_eq; [|by apply RunReduceP_parallel].
    apply parallel_path_true in Hpath as [_ Hmin]. simpl.
    f_equal. apply partials_fold_parallel; auto with lia.
  - erewrite RunReduce_eq; [|by apply RunReduceP_serial].
    simpl. rewrite op_zero_l. f_equal. by apply fold_range_ext.
Qed.

End ReduceCorrect.

(** C1 (as stated, refuted): with requested worker count 0 [RunReduceP]
    returns no partial result and [RunReduce] returns 0 whatever the work
    function is; here the sequential fold of [+] over one index with work
    value 1 is 1. *)
Lemma C1_zero_workers_counterexample :
  value (RunReduce ParallelFor.MIN_SIZE 0 (λ _ _ _, 1) Z.add 1 0 1) = Some 0 ∧
  sequential_fold Z.add (λ _, 1) 0 1 = 1 ∧
  value (RunReduce ParallelFor.MIN_SIZE 0 (λ _ _ _, 1) Z.add 1 0 1)
    ≠ Some (sequential_fold Z.add (λ _, 1) 0 1).
Proof. by vm_compute. Qed.

(** C1 (amended): for every size, every requested worker count of at least 1,
    every team of between 1 and that many threads the runtime grants (with
    [size * team] below 2^64 when the parallel region is entered), every
    work function whose value depends only on the index, and every
    associative and commutative combine operation with identity 0,
    [RunReduce] returns the sequential fold of the operation over the work
    function at every index of [[0, size)], starting from 0.  With requested
    worker count 0, for every size, work function, combine operation and
    team, [RunReduceP] returns no partial result and [RunReduce] returns
    0. *)
Theorem C1_RunReduce_sequential_fold :
  (∀ (R : Type) (MIN_SIZE : Z) (op : R → R → R) (zero : R)
     (func : Z → Z → Z → R) (g : Z → R) (team num_threads size : Z),
     (∀ a b c, op a (op b c) = op (op a b) c) →
     (∀ a b, op a b = op b a) →
     (∀ a, op zero a = a) →
     (∀ n m i, func n m i = g i) →
     is_uint64 size → is_unsigned num_threads →
     1 ≤ num_threads → 1 ≤ team ≤ num_threads →
     (parallel_path MIN_SIZE num_threads size = true →
      size * team < 2 ^ 64) →
     value (RunReduce MIN_SIZE zero func op team num_threads size) =
     Some (sequential_fold op g zero size)) ∧
  (∀ (R : Type) (MIN_SIZE : Z) (zero : R) (func : Z → Z → Z → R)
     (op : R → R → R) (team size : Z),
     value (RunReduceP MIN_SIZE zero func op team 0 size) = Some [] ∧
     value (RunReduce MIN_SIZE zero func op team 0 size) = Some zero).
Proof.
  split.
  - intros R MIN_SIZE op zero func g team num_threads size
      Hassoc Hcomm Hzero Hfunc [Hs _] [_ Hnt32] Hnt Hteam Hw.
    apply RunReduce_fold; try done; [|lia].
    intros a. by rewrite Hcomm.
  - intros R MIN_SIZE zero func op team size.
    pose proof (RunReduceP_none MIN_SIZE zero func op team 0 size
                  ltac:(lia)) as HP.
    by rewrite (RunReduce_eq _ _ _ _ _ _ _ _ _ HP), HP.
Qed.

Lemma C1_RunReduce_sequential_fold_witness :
  value (RunReduce 4 0 (λ _ _ i, i) Z.add 3 4 10) =
  Some (sequential_fold Z.add (λ i, i) 0 10).
Proof.
  apply (proj1 C1_RunReduce_sequential_fold Z 4 Z.add 0
           (λ _ _ i, i) (λ i, i) 3 4 10).
  - intros; lia.
  - intros; lia.
  - intros; lia.
  - done.
  - unfold is_uint64; lia.
  - unfold is_unsigned; lia.
  - lia.
  - lia.
  - intros _; lia.
Defined.

(** ** The partition of [[0, size)] *)

(** C2 (as stated, refuted): below the threshold [MIN_SIZE = 1024] every
    worker id is given the whole range, so with [size = 3] and two workers
    index 1 belongs to worker 0 and to worker 1. *)
Lemma C2_below_threshold_counterexample :
  owns ParallelFor.MIN_SIZE 3 2 0 1 = true ∧
  owns ParallelFor.MIN_SIZE 3 2 1 1 = true ∧
  ¬ ranges_partition ParallelFor.MIN_SIZE 3 2.
Proof.
  split; [done|]. split; [done|].
  intros (_ & _ & Hdisjoint).
  by specialize (Hdisjoint 0 1 1 ltac:(lia) ltac:(lia) eq_refl eq_refl).
Qed.

(** C2 (amended): for every size and every worker count of at least 1 such
    that the partitioner is on its splitting branch ([size >= MIN_SIZE]), or
    there is a single worker, or the size is 0, and such that
    [size * worker_count] is below 2^64, the ranges of the worker ids
    [0 <= id < worker_count] are pairwise disjoint and their union is
    exactly [[0, size)]. *)
Theorem C2_ranges_partition :
  ∀ MIN_SIZE size n,
    is_uint64 size → is_unsigned n → 1 ≤ n →
    MIN_SIZE ≤ size ∨ n = 1 ∨ size = 0 →
    size * n < 2 ^ 64 →
    ranges_partition MIN_SIZE size n.
Proof.
  intros MIN_SIZE size n [Hs Hs64] [_ Hn32] Hn Hcase Hw.
  destruct (Z.le_gt_cases MIN_SIZE size) as [Hle|Hgt].
  { apply partition_above; lia. }
  destruct Hcase as [?|[->| ->]]; [lia | by apply partition_single |].
  split; [|split].
  - intros m i _ Ho. by apply owns_below in Ho.
  - intros; lia.
  - intros a b i _ _ Ho. apply owns_below in Ho; lia.
Qed.

Lemma C2_ranges_partition_witness :
  ranges_partition 4 10 4.
Proof.
  apply (C2_ranges_partition 4 10 4).
  - unfold is_uint64; lia.
  - unfold is_unsigned; lia.
  - lia.
  - left; lia.
  - lia.
Defined.

(** The two conditions of the amended statement are needed: with at least
    one index and two workers or more, the ranges are a partition only on
    the splitting branch and only without wrap-around. *)
Lemma ranges_partition_only_if MIN_SIZE size n :
  is_uint64 size → is_unsigned n → 1 ≤ n →
  ranges_partition MIN_SIZE size n →
  size = 0 ∨ n = 1 ∨ (MIN_SIZE ≤ size ∧ size * n < 2 ^ 64).
Proof.
  intros [Hs Hs64] [_ Hn32] Hn (Hin & Hcover & Hdisjoint).
  destruct (decide (size = 0)) as [|Hs0]; [by left|].
  destruct (decide (n = 1)) as [|Hn1]; [by right; left|].
  right; right.
  destruct (Z.le_gt_cases MIN_SIZE size) as [Hle|Hgt].
  - split; [done|].
    destruct (Z.lt_ge_cases (size * n) (2 ^ 64)) as [|Hwrap]; [done|].
    destruct (Hcover (size - 1)) as (m & Hm & Ho); [lia|]. exfalso.
    unfold owns in Ho.
    rewrite GetIndex0_above, GetIndex1_above in Ho by lia.
    apply andb_true_iff in Ho as [_ Hlt%Z.ltb_lt].
    pose proof (wrap64_range (size * (m + 1))) as Hr.
    assert (wrap64 (size * (m + 1)) / n < size); [|lia].
    apply Z.div_lt_upper_bound; nia.
  - exfalso.
    assert (0 = 1); [|done].
    apply (Hdisjoint 0 1 0); try lia; apply owns_below; lia.
Qed.

(** ** Monotonic assignment *)

(** C5 (as stated, refuted): below the threshold worker 0 of 2 ends at
    [size = 3] and worker 1 begins at 0. *)
Lemma C5_below_threshold_counterexample :
  GetIndex1 ParallelFor.MIN_SIZE 3 2 0 = Some 3 ∧
  GetIndex0 ParallelFor.MIN_SIZE 3 2 1 = Some 0 ∧
  ends_before ParallelFor.MIN_SIZE 3 2 0 1 = false.
Proof. done. Qed.

(** C5 (amended): for every size on the splitting branch
    ([size >= MIN_SIZE]) or equal to 0, every worker count and all worker
    ids [a < b < worker_count] with [size * b] below 2^64,
    [GetIndex1(size, worker_count, a) <= GetIndex0(size, worker_count, b)]. *)
Theorem C5_ends_before :
  ∀ MIN_SIZE size n a b,
    is_uint64 size → is_unsigned n →
    0 ≤ a → a < b → b < n →
    MIN_SIZE ≤ size ∨ size = 0 →
    size * b < 2 ^ 64 →
    ends_before MIN_SIZE size n a b = true.
Proof.
  intros MIN_SIZE size n a b [Hs Hs64] [_ Hn32] Ha Hab Hb Hcase Hw.
  unfold ends_before.
  destruct (Z.le_gt_cases MIN_SIZE size) as [Hle|Hgt].
  - rewrite GetIndex1_exact, GetIndex0_exact by nia.
    apply Z.leb_le, boundary_mono; lia.
  - rewrite GetIndex1_below, GetIndex0_below by done.
    apply Z.leb_le. lia.
Qed.

Lemma C5_ends_before_witness :
  ends_before 4 10 4 1 3 = true.
Proof.
  apply (C5_ends_before 4 10 4 1 3).
  - unfold is_uint64; lia.
  - unfold is_unsigned; lia.
  - lia.
  - lia.
  - lia.
  - left; lia.
  - lia.
Defined.

(** ** The threshold fallback *)

(** C4 (as stated, refuted): below the threshold [MIN_SIZE = 1024] the range
    of worker 1 of 2 is the whole [[0, 3)], not an empty range. *)
Lemma C4_other_workers_counterexample :
  range_of ParallelFor.MIN_SIZE 3 2 1 = Some (0, 3) ∧
  range_is_empty ParallelFor.MIN_SIZE 3 2 1 = false ∧
  ¬ single_owner ParallelFor.MIN_SIZE 3 2.
Proof.
  split; [done|]. split; [done|].
  intros [_ Hempty]. by specialize (Hempty 1 ltac:(lia)).
Qed.

(** C4 (amended): for every size strictly below the threshold, every worker
    count and every worker id (0 or not), [GetIndex0] is 0 and [GetIndex1] is
    [size]: the range of each id is the whole [[0, size)], and it is empty
    only when [size] is 0.  The single worker is the dispatcher's doing:
    [Run] does not open a parallel region and calls [func(1, 0, i)] for the
    indices of [[0, size)] in increasing order. *)
Theorem C4_below_threshold :
  ∀ MIN_SIZE size n m team,
    size < MIN_SIZE →
    GetIndex0 MIN_SIZE size n m = Some 0 ∧
    GetIndex1 MIN_SIZE size n m = Some size ∧
    (range_is_empty MIN_SIZE size n m = true ↔ size ≤ 0) ∧
    calls (Run MIN_SIZE team n size) = Some (EvFunc 1 0 <$> seqZ 0 size).
Proof.
  intros MIN_SIZE size n m team H.
  split; [by apply GetIndex0_below|].
  split; [by apply GetIndex1_below|]. split.
  - unfold range_is_empty. rewrite range_of_below by done. apply Z.leb_le.
  - rewrite Run_serial; [done|]. apply parallel_path_false. by right.
Qed.

Lemma C4_below_threshold_witness :
  GetIndex0 ParallelFor.MIN_SIZE 3 8 5 = Some 0 ∧
  GetIndex1 ParallelFor.MIN_SIZE 3 8 5 = Some 3 ∧
  (range_is_empty ParallelFor.MIN_SIZE 3 8 5 = true ↔ 3 ≤ 0) ∧
  calls (Run ParallelFor.MIN_SIZE 8 8 3) = Some (EvFunc 1 0 <$> seqZ 0 3).
Proof.
  apply (C4_below_threshold ParallelFor.MIN_SIZE 3 8 5 8).
  unfold ParallelFor.MIN_SIZE. lia.
Defined.

(** ** Zero requested workers *)

(** C3 (as stated, refuted): [Run] with requested worker count 0 and
    [size = 3] invokes the work function three times. *)
Lemma C3_Run_zero_workers_counterexample :
  calls (Run ParallelFor.MIN_SIZE 1 0 3) =
    Some [EvFunc 1 0 0; EvFunc 1 0 1; EvFunc 1 0 2] ∧
  func_count <$> calls (Run ParallelFor.MIN_SIZE 1 0 3) ≠ Some 0%nat.
Proof. by vm_compute. Qed.

(** C3 (amended): for every size, [Run] with requested worker count 0 takes
    the serial branch: it opens no parallel region and invokes the work
    function once per index of [[0, size)], as [func(1, 0, i)] in increasing
    order of [i], that is [size] times. *)
Theorem C3_Run_zero_workers :
  ∀ MIN_SIZE team size,
    calls (Run MIN_SIZE team 0 size) = Some (EvFunc 1 0 <$> seqZ 0 size) ∧
    func_count <$> calls (Run MIN_SIZE team 0 size) = Some (Z.to_nat size).
Proof.
  intros MIN_SIZE team size.
  assert (Run MIN_SIZE team 0 size = inr (EvFunc 1 0 <$> seqZ 0 size, tt))
    as -> by (apply Run_serial, parallel_path_false; lia).
  split; [done|]. simpl. f_equal. unfold func_count.
  rewrite <- (length_seqZ 0 size).
  induction (seqZ 0 size) as [|i l IH]; [done|].
  rewrite fmap_cons, filter_cons. simpl. by rewrite IH.
Qed.

(** C6: for every size, work function and combine operation (and whatever
    the runtime would grant), [RunReduceP] with requested worker count 0
    invokes neither the work function nor the combine operation: its log is
    empty, and it returns the empty sequence of partial results. *)
Theorem C6_RunReduceP_zero_workers :
  ∀ {R : Type} MIN_SIZE (zero : R) func op team size,
    RunReduceP MIN_SIZE zero func op team 0 size = inr ([], []) ∧
    calls (RunReduceP MIN_SIZE zero func op team 0 size) = Some [] ∧
    value (RunReduceP MIN_SIZE zero func op team 0 size) = Some [].
Proof.
  intros R MIN_SIZE zero func op team size.
  by rewrite RunReduceP_none by lia.
Qed.

(** ** The serial fallback of the reduction *)

(** C7: when [RunReduceP] takes the serial fallback (requested worker count
    at least 1, and worker count 1 or size below the threshold), the partial
    results are exactly one element, the sequential fold of the combine
    operation over [func(1, 0, i)] for every index of [[0, size)], starting
    from 0. *)
Theorem C7_RunReduceP_serial :
  ∀ {R : Type} MIN_SIZE (zero : R) func op team num_threads size,
    1 ≤ num_threads →
    num_threads = 1 ∨ size < MIN_SIZE →
    value (RunReduceP MIN_SIZE zero func op team num_threads size) =
    Some [sequential_fold op (func 1 0) zero size].
Proof.
  intros R MIN_SIZE zero func op team num_threads size Hnt Hserial.
  rewrite RunReduceP_serial; [done| |done].
  apply parallel_path_false. lia.
Qed.

Lemma C7_RunReduceP_serial_witness :
  value (RunReduceP ParallelFor.MIN_SIZE 0 (λ _ _ i, i * i) Z.add 8 8 5) =
  Some [sequential_fold Z.add (λ i, i * i) 0 5].
Proof.
  apply (C7_RunReduceP_serial ParallelFor.MIN_SIZE 0 (λ _ _ i, i * i) Z.add
           8 8 5).
  - lia.
  - right. unfold ParallelFor.MIN_SIZE. lia.
Defined.

(** ** The split formula and wrap-around *)

(** C8 (as stated, refuted): with [size = 2^63] and two workers the product
    [size * (1 + 1)] of worker 1 is 2^64, which wraps to 0 at [uint64_t], so
    [GetIndex1] returns 0 where the exact quotient is 2^63. *)
Lemma C8_wrap_around_counterexample :
  GetIndex1 ParallelFor.MIN_SIZE (2 ^ 63) 2 1 = Some 0 ∧
  2 ^ 63 * (1 + 1) / 2 = 2 ^ 63 ∧
  GetIndex1 ParallelFor.MIN_SIZE (2 ^ 63) 2 1 ≠ Some (2 ^ 63 * (1 + 1) / 2).
Proof. by vm_compute. Qed.

(** C8 (amended): for every size at or above the threshold, every worker count
    of at least 1 and every worker id below it, [GetIndex0] returns
    [floor(size * id / count)] exactly when [size * id] is below 2^64, and
    [GetIndex1] returns [floor(size * (id + 1) / count)] exactly when
    [size * (id + 1)] is below 2^64; beyond that the 64-bit product wraps
    around. *)
Theorem C8_exact_iff_no_wrap :
  ∀ MIN_SIZE size n m,
    is_uint64 size → is_unsigned n →
    MIN_SIZE ≤ size → 1 ≤ n → 0 ≤ m → m < n →
    (GetIndex0 MIN_SIZE size n m = Some (size * m / n) ↔
     size * m < 2 ^ 64) ∧
    (GetIndex1 MIN_SIZE size n m = Some (size * (m + 1) / n) ↔
     size * (m + 1) < 2 ^ 64).
Proof.
  intros MIN_SIZE size n m [Hs Hs64] [_ Hn32] Hmin Hn Hm0 Hm.
  rewrite GetIndex0_above, GetIndex1_above by lia.
  rewrite <- (wrapped_quotient_eq (size * m) n) by nia.
  rewrite <- (wrapped_quotient_eq (size * (m + 1)) n) by nia.
  split; (split; [by intros [= ->] | by intros ->]).
Qed.

Lemma C8_exact_iff_no_wrap_witness :
  (GetIndex0 ParallelFor.MIN_SIZE (2 ^ 62) 4 3 = Some (2 ^ 62 * 3 / 4) ↔
   2 ^ 62 * 3 < 2 ^ 64) ∧
  (GetIndex1 ParallelFor.MIN_SIZE (2 ^ 62) 4 3 = Some (2 ^ 62 * (3 + 1) / 4) ↔
   2 ^ 62 * (3 + 1) < 2 ^ 64).
Proof.
  apply (C8_exact_iff_no_wrap ParallelFor.MIN_SIZE (2 ^ 62) 4 3).
  - unfold is_uint64; lia.
  - unfold is_unsigned; lia.
  - unfold ParallelFor.MIN_SIZE; lia.
  - lia.
  - lia.
  - lia.
Defined.

(** ** The seed of the accumulators *)

Lemma RunReduceP_zero_seeded {R} MIN_SIZE (zero : R) func op
    team num_threads size :
  (parallel_path MIN_SIZE num_threads size = true →
   1 ≤ team ≤ num_threads) →
  value (RunReduceP MIN_SIZE zero func op team num_threads size) =
  Some (Spec.RunReducePartial MIN_SIZE zero func op team num_threads size) ∧
  value (RunReduce MIN_SIZE zero func op team num_threads size) =
  Some (Spec.RunReduce MIN_SIZE zero func op team num_threads size).
Proof.
  intros Hteam. unfold Spec.RunReduce, Spec.RunReducePartial.
  fold (parallel_path MIN_SIZE num_threads size).
  destruct (parallel_path MIN_SIZE num_threads size) eqn:Hpath.
  - specialize (Hteam eq_refl).
    pose proof (RunReduceP_parallel MIN_SIZE zero func op team num_threads
                  size Hpath Hteam) as HP.
    by rewrite (RunReduce_eq _ _ _ _ _ _ _ _ _ HP), HP.
  - destruct (Z.ltb_spec 0 num_threads).
    + pose proof (RunReduceP_serial MIN_SIZE zero func op team num_threads
                    size Hpath ltac:(lia)) as HP.
      by rewrite (RunReduce_eq _ _ _ _ _ _ _ _ _ HP), HP.
    + pose proof (RunReduceP_none MIN_SIZE zero func op team num_threads
                    size ltac:(lia)) as HP.
      by rewrite (RunReduce_eq _ _ _ _ _ _ _ _ _ HP), HP.
Qed.

(** C9: for every combine operation, with or without an identity, the
    accumulators of [RunReduceP] and the accumulator of the final fold of
    [RunReduce] start from the literal 0 of the result type: the program is
    the specification's description at seed 0.  No identity of the operation
    is consulted: against the description seeded with any [e], a single
    worker reducing one index of work value [x] agrees exactly when
    [op 0 x = op e x]; so when [e] is an identity of the operation the
    results agree exactly when [op 0 x = x], that is only when 0 is a left
    identity of the operation. *)
Theorem C9_literal_zero_seed :
  ∀ {R : Type} MIN_SIZE (zero : R) func op team num_threads size,
    (parallel_path MIN_SIZE num_threads size = true →
     1 ≤ team ≤ num_threads) →
    value (RunReduceP MIN_SIZE zero func op team num_threads size) =
      Some (Spec.RunReducePartial MIN_SIZE zero func op team num_threads size)
    ∧ value (RunReduce MIN_SIZE zero func op team num_threads size) =
      Some (Spec.RunReduce MIN_SIZE zero func op team num_threads size)
    ∧ (∀ e x : R,
         value (RunReduceP MIN_SIZE zero (λ _ _ _, x) op team 1 1) =
         Some (Spec.RunReducePartial MIN_SIZE e (λ _ _ _, x) op team 1 1)
         ↔ op zero x = op e x)
    ∧ (∀ e x : R,
         (∀ y, op e y = y) →
         (value (RunReduceP MIN_SIZE zero (λ _ _ _, x) op team 1 1) =
          Some (Spec.RunReducePartial MIN_SIZE e (λ _ _ _, x) op team 1 1)
          ↔ op zero x = x)).
Proof.
  intros R MIN_SIZE zero func op team num_threads size Hteam.
  destruct (RunReduceP_zero_seeded MIN_SIZE zero func op team num_threads
              size Hteam) as [HP HR].
  split; [done|]. split; [done|].
  assert (∀ e x : R,
            value (RunReduceP MIN_SIZE zero (λ _ _ _, x) op team 1 1) =
            Some (Spec.RunReducePartial MIN_SIZE e (λ _ _ _, x) op team 1 1)
            ↔ op zero x = op e x) as Hseed.
  { intros e x.
    rewrite RunReduceP_serial by (try apply parallel_path_false; lia).
    unfold Spec.RunReducePartial. simpl. unfold fold_range. simpl.
    split; [by intros [= ->] | by intros ->]. }
  split; [done|].
  intros e x He. rewrite Hseed. by rewrite He.
Qed.

Lemma C9_literal_zero_seed_witness :
  value (RunReduceP 4 0 (λ _ _ i, i + 1) Z.mul 2 2 6) =
    Some (Spec.RunReducePartial 4 0 (λ _ _ i, i + 1) Z.mul 2 2 6)
  ∧ value (RunReduce 4 0 (λ _ _ i, i + 1) Z.mul 2 2 6) =
    Some (Spec.RunReduce 4 0 (λ _ _ i, i + 1) Z.mul 2 2 6)
  ∧ (value (RunReduceP 4 0 (λ _ _ _, 5) Z.mul 2 1 1) =
     Some (Spec.RunReducePartial 4 3 (λ _ _ _, 5) Z.mul 2 1 1)
     ↔ 0 * 5 = 3 * 5)
  ∧ (value (RunReduceP 4 0 (λ _ _ _, 5) Z.mul 2 1 1) =
     Some (Spec.RunReducePartial 4 1 (λ _ _ _, 5) Z.mul 2 1 1)
     ↔ 0 * 5 = 5).
Proof.
  destruct (C9_literal_zero_seed 4 0 (λ _ _ i, i + 1) Z.mul 2 2 6)
    as (HP & HR & Hseed & Hid).
  - intros _; lia.
  - split; [exact HP|]. split; [exact HR|].
    split; [exact (Hseed 3 5)|].
    apply (Hid 1 5). intros y; lia.
Defined.

(** ** Division by the number of threads *)

Section Division.

Variable MIN_SIZE : Z.

(** The division is not guarded: a block run for a team of 0 threads on the
    splitting branch divides by zero. *)
Lemma run_block_zero_team size m :
  MIN_SIZE ≤ size → run_block MIN_SIZE size 0 m tt = inl DivisionByZero.
Proof.
  intros H. unfold run_block, GetIndex0.
  by destruct (Z.leb_spec MIN_SIZE size); [|lia].
Qed.

(** [Run] always completes: a thread that runs the block belongs to a team
    of at least one thread. *)
Lemma Run_completes team num_threads size :
  ∃ log, Run MIN_SIZE team num_threads size = inr (log, tt).
Proof.
  destruct (parallel_path MIN_SIZE num_threads size) eqn:Hpath.
  - destruct (decide (team = 0)) as [->|Hteam].
    + unfold Run. fold (parallel_path MIN_SIZE num_threads size).
      rewrite Hpath. by eexists.
    + rewrite Run_parallel by done. by eexists.
  - rewrite Run_serial by done. by eexists.
Qed.

Section Reduce.

Context {R : Type}.
Variable zero : R.
Variable func : Z → Z → Z → R.
Variable op : R → R → R.

Lemma reduce_block_no_division size n m (v : list R) :
  n ≠ 0 →
  reduce_block MIN_SIZE zero func op size n m v ≠ inl DivisionByZero.
Proof.
  intros Hn.
  destruct (range_of_is_Some MIN_SIZE size n m Hn) as [[i0 i1] Hr].
  apply range_of_Some in Hr as [H0 H1]. unfold reduce_block.
  rewrite (bind_lift_Some _ _ i0) by done.
  rewrite (bind_lift_Some _ _ i1) by done.
  rewrite for_range_accumulate.
  unfold bind. by destruct (vec_store _ _ _).
Qed.

Lemma RunReduceP_no_division team num_threads size :
  RunReduceP MIN_SIZE zero func op team num_threads size
    ≠ inl DivisionByZero.
Proof.
  destruct (parallel_path MIN_SIZE num_threads size) eqn:Hpath.
  - unfold RunReduceP. fold (parallel_path MIN_SIZE num_threads size).
    rewrite Hpath. unfold parallel.
    intros (m & v & Hm%elem_of_seqZ & Hfault)%for_each_fault.
    revert Hfault. apply reduce_block_no_division. lia.
  - destruct (Z.le_gt_cases num_threads 0).
    + by rewrite RunReduceP_none.
    + by rewrite RunReduceP_serial by (done || lia).
Qed.

Lemma RunReduce_no_division team num_threads size :
  RunReduce MIN_SIZE zero func op team num_threads size
    ≠ inl DivisionByZero.
Proof.
  unfold RunReduce. intros [HP|[v Hfold]]%bind_fault.
  - by apply RunReduceP_no_division in HP.
  - by rewrite for_each_call_op in Hfold.
Qed.

(** With a team no larger than requested every store is inside the vector
    and [RunReduceP] completes. *)
Lemma RunReduceP_completes team num_threads size :
  team ≤ num_threads →
  ∃ log partials,
    RunReduceP MIN_SIZE zero func op team num_threads size =
    inr (log, partials).
Proof.
  intros Hteam.
  destruct (parallel_path MIN_SIZE num_threads size) eqn:Hpath.
  - destruct (Z.le_gt_cases team 0) as [Hle|Hgt].
    + unfold RunReduceP. fold (parallel_path MIN_SIZE num_threads size).
      rewrite Hpath. unfold parallel. rewrite seqZ_nil by done.
      by do 2 eexists.
    + rewrite RunReduceP_parallel by (done || lia). by do 2 eexists.
  - destruct (Z.le_gt_cases num_threads 0).
    + rewrite RunReduceP_none by done. by do 2 eexists.
    + rewrite RunReduceP_serial by (done || lia). by do 2 eexists.
Qed.

End Reduce.

End Division.

(** C10: on the branch taken when [size >= MIN_SIZE], [GetIndex0] and
    [GetIndex1] divide by [num_threads] without a guard (with 0 threads they
    are undefined there); with [num_threads >= 1] both are defined.  The
    calls [Run] and [RunReduceP] make pass the size of the team to threads of
    that team, which is at least 1, so the division by zero is unreachable:
    [Run] always completes, and [RunReduceP] and [RunReduce] never fault by a
    division by zero. *)
Theorem C10_division_defined :
  ∀ {R : Type} MIN_SIZE size n m (zero : R) func op team num_threads,
    1 ≤ n →
    GetIndex0 MIN_SIZE size 0 m = (if MIN_SIZE <=? size then None else Some 0)
    ∧ GetIndex1 MIN_SIZE size 0 m =
        (if MIN_SIZE <=? size then None else Some size)
    ∧ GetIndex0 MIN_SIZE size n m =
        Some (if MIN_SIZE <=? size then mul64 size m / n else 0)
    ∧ GetIndex1 MIN_SIZE size n m =
        Some (if MIN_SIZE <=? size then mul64 size (add32 m 1) / n else size)
    ∧ (∃ log, Run MIN_SIZE team num_threads size = inr (log, tt))
    ∧ RunReduceP MIN_SIZE zero func op team num_threads size
        ≠ inl DivisionByZero
    ∧ RunReduce MIN_SIZE zero func op team num_threads size
        ≠ inl DivisionByZero.
Proof.
  intros R MIN_SIZE size n m zero func op team num_threads Hn.
  unfold GetIndex0, GetIndex1.
  rewrite !div64_zero, !div64_Some by lia.
  repeat split; try by destruct (MIN_SIZE <=? size).
  - apply Run_completes.
  - apply RunReduceP_no_division.
  - apply RunReduce_no_division.
Qed.

Lemma C10_division_defined_witness :
  GetIndex0 4 10 0 2 = (if 4 <=? 10 then None else Some 0)
  ∧ GetIndex1 4 10 0 2 = (if 4 <=? 10 then None else Some 10)
  ∧ GetIndex0 4 10 3 2 = Some (if 4 <=? 10 then mul64 10 2 / 3 else 0)
  ∧ GetIndex1 4 10 3 2 =
      Some (if 4 <=? 10 then mul64 10 (add32 2 1) / 3 else 10)
  ∧ (∃ log, Run 4 3 4 10 = inr (log, tt))
  ∧ RunReduceP 4 0 (λ _ _ i, i) Z.add 3 4 10 ≠ inl DivisionByZero
  ∧ RunReduce 4 0 (λ _ _ i, i) Z.add 3 4 10 ≠ inl DivisionByZero.
Proof.
  apply (C10_division_defined 4 10 3 2 0 (λ _ _ i, i) Z.add 3 4); lia.
Defined.

(** * More properties of the partitioner *)

Lemma wrap64_le x : 0 ≤ x → wrap64 x ≤ x.
Proof. intros Hx. unfold wrap64. apply Z.mod_le; lia. Qed.

Lemma wrapped_boundary_le_size size n k :
  0 ≤ size → 0 < n → 0 ≤ k ≤ n → 0 ≤ wrap64 (size * k) / n ≤ size.
Proof.
  intros Hs Hn Hk. pose proof (wrap64_range (size * k)) as Hr.
  split; [apply Z.div_pos; lia|].
  transitivity (size * k / n).
  - apply Z.div_le_mono; [lia|]. apply wrap64_le. nia.
  - apply boundary_le_size; lia.
Qed.

(** X1: on the splitting branch the range of a worker ends exactly where the
    range of the next worker begins, wrap-around or not: both bounds are the
    same 64-bit product divided by the same count. *)
Theorem X1_ranges_contiguous :
  ∀ MIN_SIZE size n m,
    MIN_SIZE ≤ size → 0 ≤ m → m + 1 < 2 ^ 32 →
    GetIndex1 MIN_SIZE size n m = GetIndex0 MIN_SIZE size n (m + 1).
Proof.
  intros MIN_SIZE size n m Hmin Hm0 Hm.
  unfold GetIndex0, GetIndex1, add32.
  destruct (Z.leb_spec MIN_SIZE size); [|lia].
  by rewrite wrap32_small by lia.
Qed.

Lemma X1_ranges_contiguous_witness :
  GetIndex1 ParallelFor.MIN_SIZE (2 ^ 63) 4 1 =
  GetIndex0 ParallelFor.MIN_SIZE (2 ^ 63) 4 (1 + 1).
Proof.
  apply (X1_ranges_contiguous ParallelFor.MIN_SIZE (2 ^ 63) 4 1).
  - unfold ParallelFor.MIN_SIZE; lia.
  - lia.
  - lia.
Defined.

Lemma range_of_within_size MIN_SIZE size n m :
  0 ≤ size < 2 ^ 64 → 0 < n < 2 ^ 32 → 0 ≤ m < n →
  ∃ i0 i1,
    range_of MIN_SIZE size n m = Some (i0, i1) ∧
    0 ≤ i0 ≤ size ∧ 0 ≤ i1 ≤ size.
Proof.
  intros Hs Hn Hm.
  destruct (Z.le_gt_cases MIN_SIZE size) as [Hle|Hgt].
  - exists (wrap64 (size * m) / n), (wrap64 (size * (m + 1)) / n).
    unfold range_of. rewrite GetIndex0_above, GetIndex1_above by lia.
    split; [done|].
    split; apply wrapped_boundary_le_size; lia.
  - exists 0, size. rewrite range_of_below by done. split; [done|lia].
Qed.

(** X2: for every 64-bit size, every worker count of at least 1 and every
    worker id below it, both bounds are defined and lie in [[0, size]],
    below the threshold or above it, and also when the 64-bit product wraps
    around: no worker is ever given an index outside [[0, size)]. *)
Theorem X2_range_within_size :
  ∀ MIN_SIZE size n m,
    is_uint64 size → is_unsigned n → 0 ≤ m → m < n →
    ∃ i0 i1,
      range_of MIN_SIZE size n m = Some (i0, i1) ∧
      0 ≤ i0 ≤ size ∧ 0 ≤ i1 ≤ size.
Proof.
  intros MIN_SIZE size n m Hs [_ Hn32] Hm0 Hm.
  apply range_of_within_size; [done | lia | lia].
Qed.

Lemma X2_range_within_size_witness :
  ∃ i0 i1,
    range_of ParallelFor.MIN_SIZE (2 ^ 63) 4 3 = Some (i0, i1) ∧
    0 ≤ i0 ≤ 2 ^ 63 ∧ 0 ≤ i1 ≤ 2 ^ 63.
Proof.
  apply (X2_range_within_size ParallelFor.MIN_SIZE (2 ^ 63) 4 3).
  - unfold is_uint64; lia.
  - unfold is_unsigned; lia.
  - lia.
  - lia.
Defined.

(** The lengths of the chunks of the exact split. *)
Lemma boundary_step size n m :
  0 ≤ size → 0 < n → 0 ≤ m →
  size / n ≤ size * (m + 1) / n - size * m / n ≤ (size + n - 1) / n.
Proof.
  intros Hs Hn Hm.
  pose proof (Z.div_mod size n ltac:(lia)) as Hdm.
  pose proof (Z.mod_pos_bound size n Hn) as Hr.
  set (q := size / n) in *. set (r := size mod n) in *.
  assert (size * m / n = q * m + r * m / n) as ->.
  { replace (size * m) with (q * m * n + r * m) by nia.
    apply Z.div_add_l. lia. }
  assert (size * (m + 1) / n = q * (m + 1) + (r * m + r) / n) as ->.
  { replace (size * (m + 1)) with (q * (m + 1) * n + (r * m + r)) by nia.
    apply Z.div_add_l. lia. }
  assert ((size + n - 1) / n = q + (r + n - 1) / n) as ->.
  { replace (size + n - 1) with (q * n + (r + n - 1)) by nia.
    apply Z.div_add_l. lia. }
  assert (r * m / n ≤ (r * m + r) / n) by (apply Z.div_le_mono; lia).
  destruct (decide (r = 0)) as [->|Hr0].
  - rewrite Z.mul_0_l, !Z.add_0_l, Z.div_0_l by lia.
    assert ((n - 1) / n = 0) as -> by (apply Z.div_small; lia). lia.
  - assert (1 ≤ (r + n - 1) / n) by (apply Z.div_le_lower_bound; lia).
    assert ((r * m + r) / n ≤ (r * m + 1 * n) / n)
      by (apply Z.div_le_mono; lia).
    rewrite Z.div_add in * by lia. lia.
Qed.

(** X3: on the splitting branch and without wrap-around the split is
    balanced: the number of indices of every worker is the quotient
    [size / worker_count] rounded down or rounded up (so the ranges are well
    formed, begin at most end, and no two workers differ by more than one
    index). *)
Theorem X3_ranges_balanced :
  ∀ MIN_SIZE size n m,
    is_uint64 size → is_unsigned n →
    MIN_SIZE ≤ size → 0 ≤ m → m < n → size * (m + 1) < 2 ^ 64 →
    ∃ i0 i1,
      range_of MIN_SIZE size n m = Some (i0, i1) ∧
      size / n ≤ i1 - i0 ≤ (size + n - 1) / n.
Proof.
  intros MIN_SIZE size n m [Hs Hs64] [_ Hn32] Hmin Hm0 Hm Hw.
  exists (size * m / n), (size * (m + 1) / n).
  split; [apply range_of_above; lia|].
  apply boundary_step; lia.
Qed.

Lemma X3_ranges_balanced_witness :
  ∃ i0 i1,
    range_of 4 10 4 1 = Some (i0, i1) ∧
    10 / 4 ≤ i1 - i0 ≤ (10 + 4 - 1) / 4.
Proof.
  apply (X3_ranges_balanced 4 10 4 1).
  - unfold is_uint64; lia.
  - unfold is_unsigned; lia.
  - lia.
  - lia.
  - lia.
  - lia.
Defined.

(** X4: with a single worker the partitioner returns the whole range
    [[0, size)] for worker 0, for every 64-bit size on either branch. *)
Theorem X4_single_worker_range :
  ∀ MIN_SIZE size,
    is_uint64 size → range_of MIN_SIZE size 1 0 = Some (0, size).
Proof.
  intros MIN_SIZE size [Hs Hs64].
  destruct (Z.le_gt_cases MIN_SIZE size) as [Hle|Hgt].
  - rewrite range_of_above by lia.
    by rewrite Z.mul_0_r, Z.add_0_l, Z.mul_1_r, !Z.div_1_r.
  - by apply range_of_below.
Qed.

Lemma X4_single_worker_range_witness :
  range_of ParallelFor.MIN_SIZE (2 ^ 64 - 1) 1 0 = Some (0, 2 ^ 64 - 1).
Proof.
  apply (X4_single_worker_range ParallelFor.MIN_SIZE (2 ^ 64 - 1)).
  unfold is_uint64; lia.
Defined.

(** * More properties of [Run] *)

Lemma func_indices_calls n m (l : list Z) :
  func_indices (EvFunc n m <$> l) = l.
Proof.
  unfold func_indices. induction l as [|i l IH]; [done|].
  simpl. f_equal. exact IH.
Qed.

Section RunCalls.

Variable MIN_SIZE : Z.

(** The first [k] workers of the exact split call the work function on the
    indices below the [k]th boundary, in increasing order. *)
Lemma run_region_indices size team (k : nat) :
  MIN_SIZE ≤ size → 0 ≤ size → 1 ≤ team < 2 ^ 32 →
  size * team < 2 ^ 64 → Z.of_nat k ≤ team →
  func_indices (seqZ 0 (Z.of_nat k) ≫= worker_calls MIN_SIZE size team) =
  seqZ 0 (size * Z.of_nat k / team).
Proof.
  intros Hmin Hs Hteam Hw. induction k as [|k IH]; intros Hk.
  - by rewrite boundary_first.
  - rewrite seqZ_S, bind_app. unfold func_indices in *.
    rewrite omap_app, IH by lia. simpl. rewrite app_nil_r, Z.add_0_l.
    unfold worker_calls. rewrite range_of_above by nia.
    fold (func_indices
            (EvFunc team (Z.of_nat k) <$>
               seqZ (size * Z.of_nat k / team)
                 (size * (Z.of_nat k + 1) / team
                  - size * Z.of_nat k / team))).
    rewrite func_indices_calls.
    pose proof (boundary_nonneg size team (Z.of_nat k)).
    pose proof (boundary_mono size team (Z.of_nat k) (Z.of_nat k + 1)).
    rewrite <- (seqZ_app 0) by lia. f_equal.
    replace (Z.of_nat (S k)) with (Z.of_nat k + 1) by lia. lia.
Qed.

Lemma Run_indices team num_threads size :
  0 ≤ size < 2 ^ 64 → team < 2 ^ 32 →
  (parallel_path MIN_SIZE num_threads size = true →
   1 ≤ team ∧ size * team < 2 ^ 64) →
  func_indices <$> calls (Run MIN_SIZE team num_threads size) =
  Some (seqZ 0 size).
Proof.
  intros Hs Hteam32 Hteam.
  destruct (parallel_path MIN_SIZE num_threads size) eqn:Hpath.
  - destruct (Hteam eq_refl) as [Hteam1 Hw].
    apply parallel_path_true in Hpath as Hpath'. destruct Hpath' as [_ Hmin].
    rewrite Run_parallel by (done || lia).
    change (Some (func_indices
                    (seqZ 0 team ≫= worker_calls MIN_SIZE size team)) =
            Some (seqZ 0 size)).
    f_equal.
    replace (seqZ 0 team) with (seqZ 0 (Z.of_nat (Z.to_nat team)))
      by (by rewrite Z2Nat.id by lia).
    rewrite run_region_indices by lia.
    by rewrite Z2Nat.id, boundary_last by lia.
  - rewrite Run_serial by done.
    change (Some (func_indices (EvFunc 1 0 <$> seqZ 0 size)) =
            Some (seqZ 0 size)).
    by rewrite func_indices_calls.
Qed.

(** Every call of a worker of the team is a call on an index of its own
    range, and the range lies in [[0, size)]. *)
Lemma worker_calls_owned size team m' e :
  0 ≤ size < 2 ^ 64 → 0 < team < 2 ^ 32 → 0 ≤ m' < team →
  e ∈ worker_calls MIN_SIZE size team m' →
  ∃ i, e = EvFunc team m' i ∧
       owns MIN_SIZE size team m' i = true ∧ 0 ≤ i < size.
Proof.
  intros Hs Hteam Hm' He. unfold worker_calls in He.
  destruct (range_of_within_size MIN_SIZE size team m' Hs Hteam Hm')
    as (i0 & i1 & Hr & Hi0 & Hi1).
  rewrite Hr in He. apply list_elem_of_fmap in He as (i & -> & Hi).
  apply elem_of_seqZ in Hi. exists i. split; [done|].
  apply range_of_Some in Hr as [H0 H1]. unfold owns. rewrite H0, H1.
  split; [|lia]. apply andb_true_iff. rewrite Z.leb_le, Z.ltb_lt. lia.
Qed.

Lemma Run_calls_owned team num_threads size log e :
  0 ≤ size < 2 ^ 64 → 0 ≤ team < 2 ^ 32 →
  calls (Run MIN_SIZE team num_threads size) = Some log →
  e ∈ log →
  ∃ n m i, e = EvFunc n m i ∧
    n = (if parallel_path MIN_SIZE num_threads size then team else 1) ∧
    0 ≤ m < n ∧ owns MIN_SIZE size n m i = true ∧ 0 ≤ i < size.
Proof.
  intros Hs Hteam Hcalls He.
  destruct (parallel_path MIN_SIZE num_threads size) eqn:Hpath.
  - destruct (decide (team = 0)) as [->|Hteam0].
    + unfold Run in Hcalls. fold (parallel_path MIN_SIZE num_threads size)
        in Hcalls. rewrite Hpath in Hcalls. simpl in Hcalls.
      injection Hcalls as <-. by apply not_elem_of_nil in He.
    + rewrite Run_parallel in Hcalls by done. injection Hcalls as <-.
      apply list_elem_of_bind in He as (m' & He & Hm'%elem_of_seqZ).
      destruct (worker_calls_owned size team m' e) as (i & -> & Ho & Hi);
        [done | lia | lia | done |].
      exists team, m', i. repeat split; (done || lia).
  - rewrite Run_serial in Hcalls by done. injection Hcalls as <-.
    apply list_elem_of_fmap in He as (i & -> & Hi%elem_of_seqZ).
    exists 1, 0, i. split; [done|]. split; [done|]. split; [lia|].
    split; [|lia].
    destruct (Z.le_gt_cases MIN_SIZE size) as [Hle|Hgt].
    + apply owns_above; [done | lia | lia | lia | lia |].
      rewrite Z.mul_0_r, Z.add_0_l, Z.mul_1_r, !Z.div_1_r. simpl. lia.
    + apply owns_below; [done | lia].
Qed.

End RunCalls.

(** X5: when the runtime grants at least one thread and
    [size * team] is below 2^64 (or on the serial branch), [Run] calls the
    work function exactly once for every index of [[0, size)] and for no
    other index: listed worker after worker, the indices of the calls are
    0, 1, ..., [size - 1]. *)
Theorem X5_Run_each_index_once :
  ∀ MIN_SIZE team num_threads size,
    is_uint64 size → is_unsigned team →
    (parallel_path MIN_SIZE num_threads size = true →
     1 ≤ team ∧ size * team < 2 ^ 64) →
    func_indices <$> calls (Run MIN_SIZE team num_threads size) =
    Some (seqZ 0 size).
Proof.
  intros MIN_SIZE team num_threads size Hs [_ Hteam] Hpar.
  by apply Run_indices.
Qed.

Lemma X5_Run_each_index_once_witness :
  func_indices <$> calls (Run 4 3 4 10) = Some (seqZ 0 10).
Proof.
  apply (X5_Run_each_index_once 4 3 4 10).
  - unfold is_uint64; lia.
  - unfold is_unsigned; lia.
  - intros _; lia.
Defined.

(** X6: every call [Run] makes is [func(n, m, i)] with [n] the size of the
    team on the parallel branch and 1 on the serial branch, a thread id
    [0 <= m < n], and an index [i] of [[0, size)] that belongs to the range
    of worker [m] of [n]; this holds for every 64-bit size, wrap-around
    included, so the work function never sees an index outside
    [[0, size)]. *)
Theorem X6_Run_calls_owned :
  ∀ MIN_SIZE team num_threads size log e,
    is_uint64 size → is_unsigned team →
    calls (Run MIN_SIZE team num_threads size) = Some log →
    e ∈ log →
    ∃ n m i, e = EvFunc n m i ∧
      n = (if parallel_path MIN_SIZE num_threads size then team else 1) ∧
      0 ≤ m < n ∧ owns MIN_SIZE size n m i = true ∧ 0 ≤ i < size.
Proof.
  intros MIN_SIZE team num_threads size log e Hs Hteam.
  by apply Run_calls_owned.
Qed.

Lemma X6_Run_calls_owned_witness :
  ∃ n m i, EvFunc 2 1 2 = EvFunc n m i ∧
    n = (if parallel_path 4 2 4 then 2 else 1) ∧
    0 ≤ m < n ∧ owns 4 4 n m i = true ∧ 0 ≤ i < 4.
Proof.
  apply (X6_Run_calls_owned 4 2 2 4
           [EvFunc 2 0 0; EvFunc 2 0 1; EvFunc 2 1 2; EvFunc 2 1 3]
           (EvFunc 2 1 2)).
  - unfold is_uint64; lia.
  - unfold is_unsigned; lia.
  - reflexivity.
  - do 2 apply list_elem_of_further. apply list_elem_of_here.
Defined.

(** * More properties of the reduction *)

Lemma func_calls_app l1 l2 :
  func_calls (l1 ++ l2) = func_calls l1 ++ func_calls l2.
Proof. apply filter_app. Qed.

Lemma func_count_app l1 l2 :
  func_count (l1 ++ l2) = (func_count l1 + func_count l2)%nat.
Proof. unfold func_count. by rewrite filter_app, length_app. Qed.

Lemma op_count_app l1 l2 :
  op_count (l1 ++ l2) = (op_count l1 + op_count l2)%nat.
Proof. unfold op_count. by rewrite filter_app, length_app. Qed.

Lemma func_calls_accumulate_log n m (l : list Z) :
  func_calls (accumulate_log n m l) = EvFunc n m <$> l.
Proof.
  unfold accumulate_log. induction l as [|i l IH]; [done|].
  rewrite bind_cons, func_calls_app, IH. done.
Qed.

Lemma counts_accumulate_log n m (l : list Z) :
  op_count (accumulate_log n m l) = func_count (accumulate_log n m l).
Proof.
  unfold accumulate_log. induction l as [|i l IH]; [done|].
  rewrite bind_cons, op_count_app, func_count_app, IH. done.
Qed.

Section ReduceCalls.

Variable MIN_SIZE : Z.

Lemma func_calls_worker_log size n m :
  func_calls (worker_log MIN_SIZE size n m) = worker_calls MIN_SIZE size n m.
Proof.
  unfold worker_log, worker_calls.
  destruct (range_of MIN_SIZE size n m) as [[i0 i1]|]; [|done].
  apply func_calls_accumulate_log.
Qed.

Lemma counts_worker_log size n m :
  op_count (worker_log MIN_SIZE size n m) =
  func_count (worker_log MIN_SIZE size n m).
Proof.
  unfold worker_log.
  destruct (range_of MIN_SIZE size n m) as [[i0 i1]|]; [|done].
  apply counts_accumulate_log.
Qed.

Lemma func_calls_region size n (ids : list Z) :
  func_calls (ids ≫= worker_log MIN_SIZE size n) =
  ids ≫= worker_calls MIN_SIZE size n.
Proof.
  induction ids as [|m ids IH]; [done|].
  by rewrite !bind_cons, func_calls_app, IH, func_calls_worker_log.
Qed.

Lemma counts_region size n (ids : list Z) :
  op_count (ids ≫= worker_log MIN_SIZE size n) =
  func_count (ids ≫= worker_log MIN_SIZE size n).
Proof.
  induction ids as [|m ids IH]; [done|].
  by rewrite !bind_cons, op_count_app, func_count_app, IH, counts_worker_log.
Qed.

Context {R : Type}.
Variable zero : R.
Variable func : Z → Z → Z → R.
Variable op : R → R → R.

Lemma RunReduceP_calls team num_threads size :
  1 ≤ num_threads →
  (parallel_path MIN_SIZE num_threads size = true →
   1 ≤ team ≤ num_threads) →
  func_calls <$> calls (RunReduceP MIN_SIZE zero func op team num_threads size)
    = calls (Run MIN_SIZE team num_threads size) ∧
  op_count <$> calls (RunReduceP MIN_SIZE zero func op team num_threads size)
    = func_count
        <$> calls (RunReduceP MIN_SIZE zero func op team num_threads size).
Proof.
  intros Hnt Hteam.
  destruct (parallel_path MIN_SIZE num_threads size) eqn:Hpath.
  - specialize (Hteam eq_refl).
    rewrite RunReduceP_parallel, Run_parallel by (done || lia).
    unfold calls. simpl.
    by rewrite func_calls_region, counts_region.
  - rewrite RunReduceP_serial, Run_serial by done.
    unfold calls. simpl.
    by rewrite func_calls_accumulate_log, counts_accumulate_log.
Qed.

(** The shape of the vector [RunReduceP] returns. *)
Lemma RunReduceP_shape team num_threads size :
  (parallel_path MIN_SIZE num_threads size = true →
   1 ≤ team ≤ num_threads) →
  ∃ partials,
    value (RunReduceP MIN_SIZE zero func op team num_threads size) =
      Some partials ∧
    Z.of_nat (length partials) =
      (if parallel_path MIN_SIZE num_threads size then num_threads
       else if 0 <? num_threads then 1 else 0) ∧
    (parallel_path MIN_SIZE num_threads size = true →
     ∀ j, team ≤ j < num_threads → partials !! Z.to_nat j = Some zero).
Proof.
  intros Hteam.
  destruct (parallel_path MIN_SIZE num_threads size) eqn:Hpath.
  - specialize (Hteam eq_refl).
    rewrite RunReduceP_parallel by done. eexists. split; [done|].
    split.
    + rewrite length_app, length_fmap, length_seqZ, length_replicate. lia.
    + intros _ j Hj.
      rewrite lookup_app_r
        by (rewrite length_fmap, length_seqZ; lia).
      apply lookup_replicate_2.
      rewrite length_fmap, length_seqZ. lia.
  - destruct (Z.ltb_spec 0 num_threads).
    + rewrite RunReduceP_serial by (done || lia). eexists.
      split; [done|]. split; [done|]. done.
    + rewrite RunReduceP_none by lia. eexists.
      split; [done|]. split; [done|]. done.
Qed.

(** The slot of a thread of the team, without wrap-around, is the fold over
    the floor split's range of that thread. *)
Lemma RunReduceP_slot team num_threads size m :
  0 ≤ size → num_threads < 2 ^ 32 →
  parallel_path MIN_SIZE num_threads size = true →
  1 ≤ team ≤ num_threads → size * team < 2 ^ 64 → 0 ≤ m < team →
  ∃ partials,
    value (RunReduceP MIN_SIZE zero func op team num_threads size) =
      Some partials ∧
    partials !! Z.to_nat m =
      Some (fold_range op (func team m) zero
              (size * m / team) (size * (m + 1) / team)).
Proof.
  intros Hs Hnt Hpath Hteam Hw Hm.
  rewrite RunReduceP_parallel by done. eexists. split; [done|].
  rewrite lookup_app_l by (rewrite length_fmap, length_seqZ; lia).
  rewrite list_lookup_fmap, lookup_seqZ_lt by lia. simpl.
  rewrite Z2Nat.id by lia. f_equal. unfold worker_partial.
  apply parallel_path_true in Hpath as [_ Hmin].
  by rewrite range_of_above by nia.
Qed.

(** On empty input nothing is invoked and every slot keeps its zero. *)
Lemma RunReduceP_empty team num_threads :
  1 ≤ num_threads →
  (parallel_path MIN_SIZE num_threads 0 = true → 1 ≤ team ≤ num_threads) →
  RunReduceP MIN_SIZE zero func op team num_threads 0 =
  inr ([], replicate
             (Z.to_nat (if parallel_path MIN_SIZE num_threads 0
                        then num_threads else 1)) zero).
Proof.
  intros Hnt Hteam.
  assert (∀ n m, n ≠ 0 → range_of MIN_SIZE 0 n m = Some (0, 0)) as Hrange.
  { intros n m Hn. unfold range_of, GetIndex0, GetIndex1, mul64.
    destruct (MIN_SIZE <=? 0); [|done].
    rewrite !Z.mul_0_l. by rewrite !div64_Some by done. }
  destruct (parallel_path MIN_SIZE num_threads 0) eqn:Hpath.
  - specialize (Hteam eq_refl). rewrite RunReduceP_parallel by done.
    assert (∀ ids : list Z,
              ids ≫= worker_log MIN_SIZE 0 team = []) as ->.
    { induction ids as [|m ids IH]; [done|].
      rewrite bind_cons, IH. unfold worker_log.
      by rewrite Hrange by lia. }
    do 2 f_equal.
    rewrite (list_fmap_ext _ (λ _, zero)).
    + replace (Z.to_nat num_threads)
        with (Z.to_nat team + Z.to_nat (num_threads - team))%nat by lia.
      rewrite replicate_add. f_equal.
      rewrite <- (length_seqZ 0 team).
      induction (seqZ 0 team) as [|m ids IH]; [done|].
      rewrite fmap_cons. simpl. by rewrite IH.
    + intros i m _. unfold worker_partial. by rewrite Hrange by lia.
  - by rewrite RunReduceP_serial by done.
Qed.

End ReduceCalls.

(** X7: for at least one requested worker, [RunReduceP] calls the work
    function with exactly the arguments [Run] calls it with, in the same
    order, and invokes the combine operation once after each of these
    calls. *)
Theorem X7_RunReduceP_calls_as_Run :
  ∀ {R : Type} MIN_SIZE (zero : R) func op team num_threads size,
    1 ≤ num_threads →
    (parallel_path MIN_SIZE num_threads size = true →
     1 ≤ team ≤ num_threads) →
    func_calls
      <$> calls (RunReduceP MIN_SIZE zero func op team num_threads size)
      = calls (Run MIN_SIZE team num_threads size) ∧
    op_count
      <$> calls (RunReduceP MIN_SIZE zero func op team num_threads size)
      = func_count
          <$> calls (RunReduceP MIN_SIZE zero func op team num_threads size).
Proof.
  intros R MIN_SIZE zero func op team num_threads size.
  apply RunReduceP_calls.
Qed.

Lemma X7_RunReduceP_calls_as_Run_witness :
  func_calls <$> calls (RunReduceP 4 0 (λ _ _ i, i) Z.add 3 4 10)
    = calls (Run 4 3 4 10) ∧
  op_count <$> calls (RunReduceP 4 0 (λ _ _ i, i) Z.add 3 4 10)
    = func_count <$> calls (RunReduceP 4 0 (λ _ _ i, i) Z.add 3 4 10).
Proof.
  apply (X7_RunReduceP_calls_as_Run 4 0 (λ _ _ i, i) Z.add 3 4 10).
  - lia.
  - intros _; lia.
Defined.

(** X8: the vector [RunReduceP] returns has one slot per requested thread
    on the parallel branch, not one per granted thread, one slot on the
    serial branch and none for 0 requested threads; on the parallel branch
    the slots of the requested threads the runtime did not grant are still
    0. *)
Theorem X8_RunReduceP_shape :
  ∀ {R : Type} MIN_SIZE (zero : R) func op team num_threads size,
    (parallel_path MIN_SIZE num_threads size = true →
     1 ≤ team ≤ num_threads) →
    ∃ partials,
      value (RunReduceP MIN_SIZE zero func op team num_threads size) =
        Some partials ∧
      Z.of_nat (length partials) =
        (if parallel_path MIN_SIZE num_threads size then num_threads
         else if 0 <? num_threads then 1 else 0) ∧
      (parallel_path MIN_SIZE num_threads size = true →
       ∀ j, team ≤ j < num_threads → partials !! Z.to_nat j = Some zero).
Proof.
  intros R MIN_SIZE zero func op team num_threads size.
  apply RunReduceP_shape.
Qed.

Lemma X8_RunReduceP_shape_witness :
  ∃ partials,
    value (RunReduceP 4 0 (λ _ _ i, i + 1) Z.add 2 4 10) = Some partials ∧
    Z.of_nat (length partials) =
      (if parallel_path 4 4 10 then 4 else if 0 <? 4 then 1 else 0) ∧
    (parallel_path 4 4 10 = true →
     ∀ j, 2 ≤ j < 4 → partials !! Z.to_nat j = Some 0).
Proof.
  apply (X8_RunReduceP_shape 4 0 (λ _ _ i, i + 1) Z.add 2 4 10).
  intros _; lia.
Defined.

(** X9: commutativity is not needed.  For every associative combine
    operation with two-sided identity 0 and every work function whose value
    depends only on the index, [RunReduce] with at least one worker and
    without wrap-around returns the fold over the indices of [[0, size)] in
    increasing order: the ranges are consecutive and the partial results are
    folded in the order of the worker ids. *)
Theorem X9_RunReduce_ordered_fold :
  ∀ {R : Type} (MIN_SIZE : Z) (op : R → R → R) (zero : R)
    (func : Z → Z → Z → R) (g : Z → R) (team num_threads size : Z),
    (∀ a b c, op a (op b c) = op (op a b) c) →
    (∀ a, op zero a = a) →
    (∀ a, op a zero = a) →
    (∀ n m i, func n m i = g i) →
    is_uint64 size → is_unsigned num_threads →
    1 ≤ num_threads → 1 ≤ team ≤ num_threads →
    (parallel_path MIN_SIZE num_threads size = true →
     size * team < 2 ^ 64) →
    value (RunReduce MIN_SIZE zero func op team num_threads size) =
    Some (sequential_fold op g zero size).
Proof.
  intros R MIN_SIZE op zero func g team num_threads size
    Hassoc Hl Hr Hfunc [Hs _] [_ Hnt32] Hnt Hteam Hw.
  apply RunReduce_fold; try done. lia.
Qed.

Lemma X9_RunReduce_ordered_fold_witness :
  value (RunReduce 4 [] (λ _ _ i, [i]) app 3 4 10) =
  Some (sequential_fold app (λ i, [i]) [] 10).
Proof.
  apply (X9_RunReduce_ordered_fold 4 app [] (λ _ _ i, [i]) (λ i, [i])
           3 4 10).
  - intros a b c. apply app_assoc.
  - intros a. reflexivity.
  - intros a. apply app_nil_r.
  - done.
  - unfold is_uint64; lia.
  - unfold is_unsigned; lia.
  - lia.
  - lia.
  - intros _; lia.
Defined.

(** X10: the order in which the threads of the team run their blocks does
    not change the partial results: each thread writes its own slot only, so
    running the blocks in any permutation of the thread ids gives the vector
    [RunReduceP] returns. *)
Theorem X10_reduce_region_schedule_free :
  ∀ {R : Type} MIN_SIZE (zero : R) func op team num_threads size
    (sched : list Z),
    parallel_path MIN_SIZE num_threads size = true →
    1 ≤ team ≤ num_threads →
    sched ≡ₚ seqZ 0 team →
    value (for_each sched (reduce_block MIN_SIZE zero func op size team)
             (replicate (Z.to_nat num_threads) zero)) =
    value (RunReduceP MIN_SIZE zero func op team num_threads size).
Proof.
  intros R MIN_SIZE zero func op team num_threads size sched
    Hpath Hteam Hperm.
  unfold RunReduceP. fold (parallel_path MIN_SIZE num_threads size).
  rewrite Hpath. unfold parallel.
  apply reduce_region_permutation; [lia | | done].
  intros m Hm. rewrite Hperm in Hm. apply elem_of_seqZ in Hm.
  rewrite length_replicate. lia.
Qed.

Lemma X10_reduce_region_schedule_free_witness :
  value (for_each [2; 0; 1] (reduce_block 4 0 (λ _ _ i, i) Z.add 10 3)
           (replicate (Z.to_nat 4) 0)) =
  value (RunReduceP 4 0 (λ _ _ i, i) Z.add 3 4 10).
Proof.
  apply (X10_reduce_region_schedule_free 4 0 (λ _ _ i, i) Z.add 3 4 10
           [2; 0; 1]).
  - reflexivity.
  - lia.
  - change (seqZ 0 3) with [0; 1; 2].
    eapply perm_trans; [apply perm_swap | apply perm_skip, perm_swap].
Defined.

(** X11: on empty input ([size = 0]) and at least one requested worker,
    [Run] makes no call, [RunReduceP] invokes neither the work function nor
    the combine operation and returns zeros only (one per requested thread
    on the parallel branch, one otherwise), and [RunReduce] returns the
    combination of these zeros. *)
Theorem X11_empty_input :
  ∀ {R : Type} MIN_SIZE (zero : R) func op team num_threads,
    1 ≤ num_threads →
    (parallel_path MIN_SIZE num_threads 0 = true → 1 ≤ team ≤ num_threads) →
    calls (Run MIN_SIZE team num_threads 0) = Some [] ∧
    RunReduceP MIN_SIZE zero func op team num_threads 0 =
      inr ([], replicate
                 (Z.to_nat (if parallel_path MIN_SIZE num_threads 0
                            then num_threads else 1)) zero) ∧
    value (RunReduce MIN_SIZE zero func op team num_threads 0) =
      Some (fold_left op
              (replicate
                 (Z.to_nat (if parallel_path MIN_SIZE num_threads 0
                            then num_threads else 1)) zero) zero).
Proof.
  intros R MIN_SIZE zero func op team num_threads Hnt Hteam.
  pose proof (RunReduceP_empty MIN_SIZE zero func op team num_threads
                Hnt Hteam) as HP.
  split; [|split; [done|]].
  - destruct (RunReduceP_calls MIN_SIZE zero func op team num_threads 0
                Hnt Hteam) as [<- _].
    by rewrite HP.
  - by rewrite (RunReduce_eq _ _ _ _ _ _ _ _ _ HP).
Qed.

Lemma X11_empty_input_witness :
  calls (Run 0 2 3 0) = Some [] ∧
  RunReduceP 0 7 (λ _ _ i, i) Z.max 2 3 0 =
    inr ([], replicate (Z.to_nat (if parallel_path 0 3 0 then 3 else 1)) 7) ∧
  value (RunReduce 0 7 (λ _ _ i, i) Z.max 2 3 0) =
    Some (fold_left Z.max
            (replicate (Z.to_nat (if parallel_path 0 3 0 then 3 else 1)) 7)
            7).
Proof.
  apply (X11_empty_input 0 7 (λ _ _ i, i) Z.max 2 3).
  - lia.
  - intros _; lia.
Defined.

(** X12: on the parallel branch and without wrap-around, the slot of every
    thread [m] of the team holds the fold, from 0 and in increasing index
    order, of the combine operation over [func(team, m, i)] for the indices
    [i] of [[size * m / team, size * (m + 1) / team)]. *)
Theorem X12_partial_of_worker :
  ∀ {R : Type} MIN_SIZE (zero : R) func op team num_threads size m,
    is_uint64 size → is_unsigned num_threads →
    parallel_path MIN_SIZE num_threads size = true →
    1 ≤ team ≤ num_threads → size * team < 2 ^ 64 →
    0 ≤ m → m < team →
    ∃ partials,
      value (RunReduceP MIN_SIZE zero func op team num_threads size) =
        Some partials ∧
      partials !! Z.to_nat m =
        Some (fold_range op (func team m) zero
                (size * m / team) (size * (m + 1) / team)).
Proof.
  intros R MIN_SIZE zero func op team num_threads size m
    [Hs _] [_ Hnt] Hpath Hteam Hw Hm0 Hm.
  by apply RunReduceP_slot.
Qed.

Lemma X12_partial_of_worker_witness :
  ∃ partials,
    value (RunReduceP 4 0 (λ _ _ i, i) Z.add 4 4 10) = Some partials ∧
    partials !! Z.to_nat 1 =
      Some (fold_range Z.add (λ i, i) 0 (10 * 1 / 4) (10 * (1 + 1) / 4)).
Proof.
  apply (X12_partial_of_worker 4 0 (λ _ _ i, i) Z.add 4 4 10 1).
  - unfold is_uint64; lia.
  - unfold is_unsigned; lia.
  - reflexivity.
  - lia.
  - lia.
  - lia.
  - lia.
Defined.

(** * The parallel region under every interleaving *)

Lemma fold_range_snoc {R} (op : R → R → R) (g : Z → R) seed i0 i :
  i0 ≤ i →
  fold_range op g seed i0 (i + 1) = op (fold_range op g seed i0 i) (g i).
Proof.
  intros Hi. unfold fold_range.
  replace (i + 1 - i0) with ((i - i0) + 1) by lia.
  rewrite seqZ_app, fold_left_app by lia.
  replace (i0 + (i - i0)) with i by lia. done.
Qed.

Lemma sum_list_with_insert {A} (f : A → nat) (l : list A) (m : nat) x y :
  l !! m = Some x →
  (sum_list_with f (<[m := y]> l) + f x = sum_list_with f l + f y)%nat.
Proof.
  revert m. induction l as [|a l IH]; intros [|m] Hm; simplify_eq/=.
  - lia.
  - specialize (IH m Hm). lia.
Qed.

Section Region.

Context {R : Type}.
Variable MIN_SIZE : Z.
Variable zero : R.
Variable func : Z → Z → Z → R.
Variable op : R → R → R.
Variable size team num_threads : Z.
Hypothesis team_granted : 1 ≤ team ≤ num_threads.

Local Abbreviation thread_inv :=
  (thread_inv MIN_SIZE zero func op size team).
Local Abbreviation region_inv :=
  (region_inv MIN_SIZE zero func op size team num_threads).

Lemma region_start_inv :
  region_inv (region_start MIN_SIZE zero size team num_threads).
Proof.
  unfold region_start, region_inv. simpl.
  rewrite length_fmap, length_seqZ, length_replicate.
  split; [done|]. split; [done|]. split.
  - intros m t Hm. rewrite list_lookup_fmap in Hm.
    destruct (seqZ 0 team !! m) as [k|] eqn:Hk; [|done].
    apply lookup_seqZ in Hk as [-> Hlt]. simpl in Hm.
    injection Hm as <-. rewrite Z.add_0_l.
    destruct (range_of_is_Some MIN_SIZE size team (Z.of_nat m))
      as [[i0 i1] Hr]; [lia|].
    exists i0, i1. split; [done|].
    apply range_of_Some in Hr as [H0 H1]. unfold thread_start.
    rewrite H0, H1. split; [done|]. split; [lia|]. split; [by right|].
    split; [by rewrite fold_range_empty by lia|].
    apply lookup_replicate_2. lia.
  - intros j Hj. apply lookup_replicate_2. lia.
Qed.

Lemma thread_step_inv m c c' :
  thread_step func op team m c = Some c' →
  region_inv c → region_inv c'.
Proof.
  destruct c as [threads v]. unfold thread_step.
  destruct (threads !! m) as [[i i1 acc| |]|] eqn:Hm; try done.
  intros Hstep (Hlen & Hlenv & Hthreads & Hrest). simpl in *.
  destruct (Hthreads m _ Hm) as (i0 & i1' & Hr & -> & Hi0 & Hi & -> & Hslot).
  assert (m < Z.to_nat team)%nat as Hmteam
    by (rewrite <- Hlen; by eapply lookup_lt_Some).
  destruct (Z.ltb_spec i i1') as [Hlt|Hge].
  - injection Hstep as <-. unfold region_inv. simpl.
    rewrite length_insert. split; [done|]. split; [done|].
    split; [|done]. intros m' t Hm'.
    destruct (decide (m' = m)) as [->|Hne].
    + rewrite list_lookup_insert_eq in Hm' by (by eapply lookup_lt_Some).
      injection Hm' as <-. exists i0, i1'. split; [done|].
      split; [done|]. split; [lia|]. split; [left; lia|].
      split; [by rewrite fold_range_snoc by lia | done].
    + rewrite list_lookup_insert_ne in Hm' by done. by apply Hthreads.
  - case_bool_decide as Hmv; [|done]. injection Hstep as <-.
    unfold region_inv. simpl. rewrite !length_insert.
    split; [done|]. split; [done|]. split.
    + intros m' t Hm'. destruct (decide (m' = m)) as [->|Hne].
      * rewrite list_lookup_insert_eq in Hm' by (by eapply lookup_lt_Some).
        injection Hm' as <-. exists i0, i1'. split; [done|].
        rewrite list_lookup_insert_eq by done. f_equal.
        destruct Hi as [Hi| ->]; [by replace i with i1' by lia|].
        by rewrite !fold_range_empty by lia.
      * rewrite list_lookup_insert_ne in Hm' by done.
        rewrite list_lookup_insert_ne by done. by apply Hthreads.
    + intros j Hj. rewrite list_lookup_insert_ne by lia. by apply Hrest.
Qed.

Lemma run_schedule_inv sched c c' :
  run_schedule func op team sched c = Some c' →
  region_inv c → region_inv c'.
Proof.
  revert c. induction sched as [|m sched IH]; intros c; simpl.
  - by intros [= <-].
  - destruct (thread_step func op team m c) as [c1|] eqn:Hstep; [|done].
    intros Hrun Hinv. apply (IH c1 Hrun). by eapply thread_step_inv.
Qed.

(** Once every thread has left the region the vector is known. *)
Lemma region_inv_finished threads v :
  region_inv (threads, v) → all_finished threads = true →
  v = (worker_partial MIN_SIZE zero func op size team <$> seqZ 0 team)
        ++ replicate (Z.to_nat (num_threads - team)) zero.
Proof.
  intros (Hlen & Hlenv & Hthreads & Hrest) Hfin. simpl in *.
  unfold all_finished in Hfin. rewrite forallb_forall in Hfin.
  apply list_eq. intros j.
  destruct (decide (j < Z.to_nat team)%nat) as [Hj|Hj].
  - rewrite lookup_app_l by (rewrite length_fmap, length_seqZ; lia).
    rewrite list_lookup_fmap, lookup_seqZ_lt by lia. simpl.
    rewrite Z.add_0_l.
    destruct (lookup_lt_is_Some_2 threads j) as [t Ht]; [lia|].
    specialize (Hfin t (proj1 (list_elem_of_In _ _)
                          (list_elem_of_lookup_2 _ _ _ Ht))).
    destruct t; try done.
    destruct (Hthreads j _ Ht) as (i0 & i1 & Hr & ->).
    unfold worker_partial. by rewrite Hr.
  - rewrite lookup_app_r by (rewrite length_fmap, length_seqZ; lia).
    rewrite length_fmap, length_seqZ.
    destruct (decide (j < Z.to_nat num_threads)%nat) as [Hjn|Hjn].
    + rewrite Hrest by lia. symmetry. apply lookup_replicate_2. lia.
    + rewrite lookup_ge_None_2 by lia. symmetry.
      apply lookup_replicate_None. lia.
Qed.

(** A region that is not finished can take a step: no thread waits for
    another one. *)
Lemma region_progress threads v :
  region_inv (threads, v) → all_finished threads = false →
  ∃ m c', thread_step func op team m (threads, v) = Some c'.
Proof.
  intros (Hlen & Hlenv & Hthreads & Hrest) Hfin. simpl in *.
  assert (∃ m t, threads !! m = Some t ∧ t ≠ Finished) as (m & t & Hm & Ht).
  { clear -Hfin. induction threads as [|t threads IH]; [done|].
    simpl in Hfin. destruct t as [i i1 acc| |].
    - by exists 0%nat, (Looping i i1 acc).
    - destruct (IH Hfin) as (m & t & Hm & Ht). by exists (S m), t.
    - by exists 0%nat, Faulted. }
  assert (m < Z.to_nat team)%nat as Hmteam
    by (rewrite <- Hlen; by eapply lookup_lt_Some).
  destruct (Hthreads m t Hm) as (i0 & i1 & Hr & Hinv).
  destruct t as [i i1' acc| |]; [|done|done].
  exists m. unfold thread_step. rewrite Hm.
  destruct (i <? i1'); [by eexists|].
  rewrite bool_decide_true by lia. by eexists.
Qed.

(** Every step is one step less to take. *)
Lemma thread_step_work m threads v threads' v' :
  thread_step func op team m (threads, v) = Some (threads', v') →
  region_work threads = S (region_work threads').
Proof.
  unfold thread_step, region_work.
  destruct (threads !! m) as [[i i1 acc| |]|] eqn:Hm; try done.
  destruct (Z.ltb_spec i i1) as [Hlt|Hge].
  - intros [= <- <-].
    pose proof (sum_list_with_insert work_left threads m _
                  (Looping (i + 1) i1 (op acc (func team (Z.of_nat m) i)))
                  Hm) as Hsum.
    simpl in Hsum. replace (Z.to_nat (i1 - i))
      with (S (Z.to_nat (i1 - (i + 1)))) in Hsum by lia. lia.
  - case_bool_decide; [|done]. intros [= <- <-].
    pose proof (sum_list_with_insert work_left threads m _ Finished Hm)
      as Hsum.
    simpl in Hsum. replace (Z.to_nat (i1 - i)) with 0%nat in Hsum by lia.
    lia.
Qed.

Lemma run_schedule_work sched threads v threads' v' :
  run_schedule func op team sched (threads, v) = Some (threads', v') →
  region_work threads = (length sched + region_work threads')%nat.
Proof.
  revert threads v. induction sched as [|m sched IH]; intros threads v;
    cbn [run_schedule length].
  - by intros [= <- <-].
  - destruct (thread_step func op team m (threads, v)) as [[t1 v1]|]
      eqn:Hstep; [|done].
    intros Hrun. apply thread_step_work in Hstep. apply IH in Hrun. lia.
Qed.

Lemma all_finished_work (threads : list (thread_state R)) :
  all_finished threads = true → region_work threads = 0%nat.
Proof.
  unfold all_finished, region_work.
  induction threads as [|t threads IH]; [done|]. simpl.
  destruct t; simpl; [done | exact IH | done].
Qed.

(** Without wrap-around the threads of the team have [size] iterations and
    [team] stores to do. *)
Lemma region_work_start_prefix (k : nat) :
  MIN_SIZE ≤ size → 0 ≤ size → team < 2 ^ 32 → size * team < 2 ^ 64 →
  Z.of_nat k ≤ team →
  region_work (thread_start MIN_SIZE zero size team <$> seqZ 0 (Z.of_nat k))
  = (Z.to_nat (size * Z.of_nat k / team) + k)%nat.
Proof.
  intros Hmin Hs Hteam32 Hw. unfold region_work.
  induction k as [|k IH]; intros Hk.
  - by rewrite boundary_first.
  - rewrite seqZ_S, fmap_app, sum_list_with_app, IH by lia. simpl.
    rewrite Z.add_0_l. unfold thread_start.
    rewrite GetIndex0_exact, GetIndex1_exact by nia. simpl.
    pose proof (boundary_nonneg size team (Z.of_nat k)).
    pose proof (boundary_mono size team (Z.of_nat k) (Z.of_nat k + 1)).
    replace (Z.of_nat (S k)) with (Z.of_nat k + 1) by lia. lia.
Qed.

Lemma region_work_start :
  MIN_SIZE ≤ size → 0 ≤ size → team < 2 ^ 32 → size * team < 2 ^ 64 →
  Z.of_nat (region_work (region_start MIN_SIZE zero size team num_threads).1)
  = size + team.
Proof.
  intros Hmin Hs Hteam32 Hw. unfold region_start. simpl.
  replace (seqZ 0 team) with (seqZ 0 (Z.of_nat (Z.to_nat team)))
    by (by rewrite Z2Nat.id by lia).
  rewrite region_work_start_prefix by lia.
  rewrite Z2Nat.id, boundary_last by lia. lia.
Qed.

End Region.

(** X13: the threads of the team may interleave the iterations of their loops
    and their stores in any way: whenever every thread has left the parallel
    region of [RunReduceP], the vector of partial results is the one
    [RunReduceP] returns.  Each thread changes its private accumulator and
    its own slot only. *)
Theorem X13_every_interleaving_same_partials :
  ∀ {R : Type} MIN_SIZE (zero : R) func op team num_threads size
    (sched : list nat) threads partial_results,
    parallel_path MIN_SIZE num_threads size = true →
    1 ≤ team ≤ num_threads →
    run_schedule func op team sched
      (region_start MIN_SIZE zero size team num_threads) =
      Some (threads, partial_results) →
    all_finished threads = true →
    value (RunReduceP MIN_SIZE zero func op team num_threads size) =
    Some partial_results.
Proof.
  intros R MIN_SIZE zero func op team num_threads size sched threads v
    Hpath Hteam Hrun Hfin.
  rewrite RunReduceP_parallel by done. simpl. f_equal. symmetry.
  apply (region_inv_finished MIN_SIZE zero func op size team num_threads
           Hteam threads v); [|done].
  apply (run_schedule_inv MIN_SIZE zero func op size team num_threads
           Hteam sched _ _ Hrun).
  by apply region_start_inv.
Qed.

Lemma X13_every_interleaving_same_partials_witness :
  value (RunReduceP 4 0 (λ _ _ i, i) Z.add 2 2 4) = Some [1; 5].
Proof.
  apply (X13_every_interleaving_same_partials 4 0 (λ _ _ i, i) Z.add 2 2 4
           [0; 1; 1; 0; 1; 0]%nat [Finished; Finished] [1; 5]).
  - reflexivity.
  - lia.
  - reflexivity.
  - reflexivity.
Defined.

(** X14: the parallel region of [RunReduceP] neither blocks nor runs on.
    Without wrap-around, whatever the interleaving, the region is finished
    after exactly [size + team] steps ([size] loop iterations and [team]
    stores); before that fewer steps were taken and some thread can take
    the next one. *)
Theorem X14_region_progress_and_length :
  ∀ {R : Type} MIN_SIZE (zero : R) func op team num_threads size
    (sched : list nat) threads partial_results,
    is_uint64 size → is_unsigned num_threads →
    parallel_path MIN_SIZE num_threads size = true →
    1 ≤ team ≤ num_threads → size * team < 2 ^ 64 →
    run_schedule func op team sched
      (region_start MIN_SIZE zero size team num_threads) =
      Some (threads, partial_results) →
    if all_finished threads
    then Z.of_nat (length sched) = size + team
    else Z.of_nat (length sched) < size + team ∧
         ∃ m c', thread_step func op team m (threads, partial_results) =
                 Some c'.
Proof.
  intros R MIN_SIZE zero func op team num_threads size sched threads v
    [Hs _] [_ Hnt] Hpath Hteam Hw Hrun.
  apply parallel_path_true in Hpath as [_ Hmin].
  pose proof (region_work_start MIN_SIZE zero size team num_threads
                Hteam Hmin Hs ltac:(lia) Hw) as Hwork.
  unfold region_start in Hrun, Hwork. simpl in Hwork.
  pose proof (run_schedule_work func op team _ _ _ _ _ Hrun) as Hlen.
  assert (region_inv MIN_SIZE zero func op size team num_threads
            (threads, v)) as Hinv.
  { apply (run_schedule_inv MIN_SIZE zero func op size team num_threads
             Hteam sched _ _ Hrun).
    by apply region_start_inv. }
  destruct (all_finished threads) eqn:Hfin.
  - apply all_finished_work in Hfin. lia.
  - destruct (region_progress MIN_SIZE zero func op size team num_threads
                Hteam threads v Hinv Hfin) as (m & [t' v'] & Hstep).
    split; [|by exists m, (t', v')].
    apply thread_step_work in Hstep. lia.
Qed.

Lemma X14_region_progress_and_length_witness :
  if all_finished [@Finished Z; Finished]
  then Z.of_nat (length [0; 1; 1; 0; 1; 0]%nat) = 4 + 2
  else Z.of_nat (length [0; 1; 1; 0; 1; 0]%nat) < 4 + 2 ∧
       ∃ m c', thread_step (λ _ _ i, i) Z.add 2 m
                 ([Finished; Finished], [1; 5]) = Some c'.
Proof.
  apply (X14_region_progress_and_length 4 0 (λ _ _ i, i) Z.add 2 2 4
           [0; 1; 1; 0; 1; 0]%nat [Finished; Finished] [1; 5]).
  - unfold is_uint64; lia.
  - unfold is_unsigned; lia.
  - reflexivity.
  - lia.
  - lia.
  - reflexivity.
Defined.
